(** * EllipticPIR: the C++ wrapper [epir.hpp] over the native EC-ElGamal core

    The wrapper classes [Scalar], [PrivateKey], [PublicKey] and
    [DecryptionContext] of [src_c/epir.hpp] are embedded as functions over
    byte lists.  The native functions declared in [epir.h] are an interface
    ([EpirCore]); a reference implementation of that interface over an
    abstract curve ([CurveEngine]) is given further down.  The two decryption
    methods are given a second time over a heap ([Mem]), where the buffers
    they reach through pointers are objects with addresses. *)

From Stdlib Require Import ZArith Lia Strings.Byte String.
From Stdlib Require Import Zmod.
From stdpp Require Import base tactics option list sorting gmap.

Local Open Scope Z_scope.

(** ** Machine integers *)

Module Int.

Definition uint64 (z : Z) : Z := z mod 2 ^ 64.
Definition size_t (z : Z) : Z := z mod 2 ^ 64.
(** Two's complement 32-bit value of [z] ([int32_t], [int]). *)
Definition int32 (z : Z) : Z := (z + 2 ^ 31) mod 2 ^ 32 - 2 ^ 31.

End Int.

(** ** Byte buffers *)

Abbreviation bytes := (list byte).

Module Buf.

(** [std::vector<unsigned char> v(n)]: [n] value-initialised bytes. *)
Definition zeros (n : nat) : bytes := replicate n x00.

(** A write of [data] through the [data()] pointer of [buf]: the vector
    keeps its size, whatever the callee writes.  Bytes written past the end
    of the vector are outside the object and not represented. *)
Definition poke {A} (buf data : list A) : list A :=
  take (length buf) data ++ drop (length data) buf.

(** [memcpy(dst, src, n)] on the first [n] bytes. *)
Definition memcpy (dst src : bytes) (n : nat) : bytes := poke dst (take n src).

(** [memcmp(a, b, n)]: the difference of the first differing byte pair among
    the first [n], bytes being compared as [unsigned char]; only its sign is
    specified.  The comparison ends where either list ends. *)
Fixpoint memcmp (a b : bytes) (n : nat) : Z :=
  match n, a, b with
  | S n', x :: a', y :: b' =>
      if (Byte.to_N x =? Byte.to_N y)%N then memcmp a' b' n'
      else Z.of_N (Byte.to_N x) - Z.of_N (Byte.to_N y)
  | _, _, _ => 0
  end.

End Buf.

(** ** Results of the wrapper's methods

    A method either returns or leaves through [throw "..."]. *)

Inductive Outcome (A : Type) : Type :=
  | Returned (a : A)
  | Thrown (what : string).
Arguments Returned {A} a.
Arguments Thrown {A} what.


(** ** Table entries ([epir_mG_t])

    The wrapper reads the field [point] in its sort comparator; the integer
    the point stands for is the entry's second field. *)

Record epir_mG_t : Type := mk_mG { point : bytes; scalar : Z }.

(** Source of randomness: the [n]-th scalar the native RNG hands out during
    one call. *)
Abbreviation rng := (nat -> bytes).

(** ** The native interface ([epir.h])

    One field per native function the wrapper calls, with the arguments of the
    call sites.  A function that fills a caller's buffer returns the data it
    writes there. *)

Class EpirCore : Type := {
  EPIR_SCALAR_SIZE : nat;
  EPIR_POINT_SIZE : nat;
  EPIR_CIPHER_SIZE : nat;
  epir_create_privkey : rng -> bytes;
  epir_pubkey_from_privkey : bytes -> bytes;
  epir_ecelgamal_encrypt : bytes -> Z -> option bytes -> rng -> bytes;
  epir_ecelgamal_encrypt_fast : bytes -> Z -> option bytes -> rng -> bytes;
  epir_selector_ciphers_count : list Z -> Z -> Z;
  epir_selector_elements_count : list Z -> Z -> Z;
  epir_selector_create : bytes -> list Z -> Z -> Z -> option bytes -> rng -> bytes;
  epir_selector_create_fast : bytes -> list Z -> Z -> Z -> option bytes -> rng -> bytes;
  epir_mG_load : Z -> option string -> Z * list epir_mG_t;
  epir_mG_generate_no_sort : Z -> list epir_mG_t;
  epir_ecelgamal_decrypt : bytes -> bytes -> list epir_mG_t -> Z -> Z;
  epir_reply_decrypt : bytes -> Z -> bytes -> Z -> Z -> list epir_mG_t -> Z -> Z * bytes;
  (** a cipher is two points *)
  cipher_size_points : EPIR_CIPHER_SIZE = (2 * EPIR_POINT_SIZE)%nat;
  point_size_pos : (0 < EPIR_POINT_SIZE)%nat
}.

(** ** The wrapper classes *)

Section Wrapper.
Context {core : EpirCore}.

(** [typedef std::array<unsigned char, EPIR_CIPHER_SIZE> Cipher] *)
Definition Cipher := bytes.

(** [class Scalar], and [PrivateKey], which adds no field. *)
Record Scalar : Type := mk_Scalar { sc_bytes : bytes }.
Definition PrivateKey := Scalar.

Definition Scalar_random (g : rng) : Scalar :=
  mk_Scalar (Buf.poke (Buf.zeros EPIR_SCALAR_SIZE) (epir_create_privkey g)).
Definition Scalar_of_buf (buf : bytes) : Scalar :=
  mk_Scalar (Buf.memcpy (Buf.zeros EPIR_SCALAR_SIZE) buf EPIR_SCALAR_SIZE).

Record PublicKey : Type := mk_PublicKey { pk_bytes : bytes }.

Definition PublicKey_of_privkey (privkey : PrivateKey) : PublicKey :=
  mk_PublicKey
    (Buf.poke (Buf.zeros EPIR_POINT_SIZE) (epir_pubkey_from_privkey (sc_bytes privkey))).
Definition PublicKey_of_buf (buf : bytes) : PublicKey :=
  mk_PublicKey (Buf.memcpy (Buf.zeros EPIR_POINT_SIZE) buf EPIR_POINT_SIZE).

(** [Encryptor::ciphersCount] and [Encryptor::elementsCount] *)
Definition ciphersCount (indexCounts : list Z) : Z :=
  Int.uint64 (epir_selector_ciphers_count indexCounts (Z.of_nat (length indexCounts))).
Definition elementsCount (indexCounts : list Z) : Z :=
  Int.uint64 (epir_selector_elements_count indexCounts (Z.of_nat (length indexCounts))).

(** [PrivateKey::encrypt] and [PrivateKey::createSelector].  A vector is
    taken to be allocated: an allocation that fails ([std::length_error],
    [std::bad_alloc]) is not represented, and what is stated of a method that
    allocates is stated of the calls that return. *)
Definition PrivateKey_encrypt (this : PrivateKey) (message : Z) (r : option bytes)
    (g : rng) : Outcome Cipher :=
  let cipher := Buf.zeros EPIR_CIPHER_SIZE in
  let cipher := Buf.poke cipher (epir_ecelgamal_encrypt_fast (sc_bytes this) message r g) in
  Returned cipher.

Definition PrivateKey_createSelector (this : PrivateKey) (indexCounts : list Z)
    (idx : Z) (r : option bytes) (g : rng) : Outcome bytes :=
  let selector := Buf.zeros (Z.to_nat (ciphersCount indexCounts)) in
  let selector :=
    Buf.poke selector
      (epir_selector_create_fast (sc_bytes this) indexCounts
         (Z.of_nat (length indexCounts)) idx r g) in
  Returned selector.

(** [PublicKey::encrypt] and [PublicKey::createSelector] *)
Definition PublicKey_encrypt (this : PublicKey) (message : Z) (r : option bytes)
    (g : rng) : Outcome Cipher :=
  let cipher := Buf.zeros EPIR_CIPHER_SIZE in
  let cipher := Buf.poke cipher (epir_ecelgamal_encrypt (pk_bytes this) message r g) in
  Returned cipher.

Definition PublicKey_createSelector (this : PublicKey) (indexCounts : list Z)
    (idx : Z) (r : option bytes) (g : rng) : Outcome bytes :=
  let selector := Buf.zeros (Z.to_nat (ciphersCount indexCounts)) in
  let selector :=
    Buf.poke selector
      (epir_selector_create (pk_bytes this) indexCounts
         (Z.of_nat (length indexCounts)) idx r g) in
  Returned selector.

(** The two implementations of the abstract class [Encryptor]. *)
Inductive Encryptor : Type :=
  | WithPrivateKey (k : PrivateKey)
  | WithPublicKey (k : PublicKey).

Definition encrypt (e : Encryptor) : Z -> option bytes -> rng -> Outcome Cipher :=
  match e with
  | WithPrivateKey k => PrivateKey_encrypt k
  | WithPublicKey k => PublicKey_encrypt k
  end.

Definition createSelector (e : Encryptor) :
    list Z -> Z -> option bytes -> rng -> Outcome bytes :=
  match e with
  | WithPrivateKey k => PrivateKey_createSelector k
  | WithPublicKey k => PublicKey_createSelector k
  end.

(** [class DecryptionContext] *)
Record DecryptionContext : Type := mk_ctx { mmax : Z; mG : list epir_mG_t }.

Definition zero_mG : epir_mG_t := mk_mG (Buf.zeros EPIR_POINT_SIZE) 0.

(** The comparator handed to [std::sort]. *)
Definition mG_less (a b : epir_mG_t) : bool :=
  Buf.memcmp (point a) (point b) EPIR_POINT_SIZE <? 0.

(** [std::sort(first, last, comp)].  The standard leaves the relative order
    of equivalent elements open; insertion from the right is one such order,
    and every order agrees when no two elements are equivalent. *)
Fixpoint sort_insert {A} (comp : A -> A -> bool) (x : A) (l : list A) : list A :=
  match l with
  | [] => [x]
  | y :: l' => if comp x y then x :: y :: l' else y :: sort_insert comp x l'
  end.
Definition std_sort {A} (comp : A -> A -> bool) (l : list A) : list A :=
  foldr (sort_insert comp) [] l.
(** The order a comparator stands for. *)
Definition lt_by {A} (comp : A -> A -> bool) : relation A :=
  fun a b => comp a b = true.

(** Constructor loading [mG.bin].  As for the selector, the vector [mG] is
    taken to be allocated. *)
Definition DecryptionContext_load (path : string) (mmax : Z) : Outcome DecryptionContext :=
  let mG := replicate (Z.to_nat mmax) zero_mG in
  let '(elemsRead, read) :=
    epir_mG_load mmax (if String.eqb path "" then None else Some path) in
  let mG := Buf.poke mG read in
  if negb (Int.size_t elemsRead =? mmax) then Thrown "Failed to load mG.bin."
  else Returned (mk_ctx mmax mG).

(** Constructor generating the table.  The progress callback [cb] only
    observes the generation and is left out. *)
Definition DecryptionContext_generate (mmax : Z) : Outcome DecryptionContext :=
  let mG := replicate (Z.to_nat mmax) zero_mG in
  let mG := Buf.poke mG (epir_mG_generate_no_sort mmax) in
  let mG := std_sort mG_less mG in
  Returned (mk_ctx mmax mG).

(** The objects a [DecryptionContext] method can reach: the context itself
    and the caller's buffers, passed by [const] reference or pointer. *)
Record Store : Type := mk_Store {
  st_this : DecryptionContext;
  st_cipher : bytes;
  st_reply : bytes
}.

Definition Method (A : Type) : Type := Store -> Outcome A * Store.

Definition decryptCipher (privkey : PrivateKey) : Method Z :=
  fun s =>
    (Returned
       (Int.int32
          (epir_ecelgamal_decrypt (sc_bytes privkey) (st_cipher s)
             (mG (st_this s)) (mmax (st_this s)))),
     s).

(** The last [memcpy] reads [decryptedCount] bytes from [buf]; where the
    count exceeds the size of [buf] the bytes behind it are not represented
    and come out as zero here ([Mem.decryptReply] below leaves them open). *)
Definition decryptReply (privkey : PrivateKey) (dimension packing : Z) : Method bytes :=
  fun s =>
    let reply := st_reply s in
    let buf := Buf.zeros (length reply) in
    let buf := Buf.memcpy buf reply (length reply) in
    let '(count, written) :=
      epir_reply_decrypt buf (Z.of_nat (length reply)) (sc_bytes privkey)
        dimension packing (mG (st_this s)) (mmax (st_this s)) in
    let buf := Buf.poke buf written in
    let decryptedCount := Int.int32 count in
    if decryptedCount <? 0 then (Thrown "Failed to decrypt.", s)
    else
      let ret := Buf.zeros (Z.to_nat decryptedCount) in
      let ret := Buf.memcpy ret buf (Z.to_nat decryptedCount) in
      (Returned ret, s).

End Wrapper.

(** ** The decryption methods over memory

    [decryptCipher] and [decryptReply] once more, with the objects they
    reach through pointers laid out in a heap: the caller's cipher and reply
    buffers, the array of the table, and the working copy [buf] that
    [decryptReply] allocates and releases.  A native function receives the
    addresses the wrapper passes and acts on the whole heap; what it leaves
    alone is a contract ([contract]), not a matter of its type. *)

Module Mem.

Inductive cell : Type :=
  | Bytes (b : bytes)
  | Table (t : list epir_mG_t).

Abbreviation heap := (gmap nat cell).

Definition bytes_at (h : heap) (p : nat) : bytes :=
  match h !! p with Some (Bytes b) => b | _ => [] end.
Definition table_at (h : heap) (p : nat) : list epir_mG_t :=
  match h !! p with Some (Table t) => t | _ => [] end.

(** The two native functions the decryption methods call, by address:
    [epir_ecelgamal_decrypt(privkey, cipher, mG, mmax)] and
    [epir_reply_decrypt(reply, reply_size, privkey, dimension, packing, mG,
    mmax)].  The key is the [bytes] member of the [PrivateKey] argument. *)
Class Natives : Type := {
  epir_ecelgamal_decrypt_at : heap -> bytes -> nat -> nat -> Z -> Z * heap;
  epir_reply_decrypt_at : heap -> nat -> Z -> bytes -> Z -> Z -> nat -> Z -> Z * heap
}.

(** What the call sites let a native function do.  [decryptCipher] passes
    pointers to [const] only; [decryptReply] passes one pointer to
    non-[const], [buf.data()], with the size of [buf]: the reply decoder
    writes into the bytes of that buffer and nowhere else, and cannot
    resize it. *)
Record contract `{Natives} : Prop := {
  decrypt_const : forall h k c t n, snd (epir_ecelgamal_decrypt_at h k c t n) = h;
  reply_decrypt_frame : forall h buf size k d p t n q,
    q <> buf -> snd (epir_reply_decrypt_at h buf size k d p t n) !! q = h !! q;
  reply_decrypt_size : forall h buf size k d p t n,
    length (bytes_at (snd (epir_reply_decrypt_at h buf size k d p t n)) buf)
    = length (bytes_at h buf)
}.

(** A [DecryptionContext] object: the member [mmax] and the address of the
    array of the member [mG]. *)
Record Context : Type := mk_Context { this_mmax : Z; this_mG : nat }.

Section Methods.
Context `{Natives}.

Definition decryptCipher (this : Context) (privkey : PrivateKey) (cipher : nat) :
    heap -> Outcome Z * heap :=
  fun h =>
    let '(status, h) :=
      epir_ecelgamal_decrypt_at h (sc_bytes privkey) cipher (this_mG this) (this_mmax this) in
    (Returned (Int.int32 status), h).

(** [reply] is the address of the caller's vector.  [buf] is a new object,
    released when the method is left, by [return] or by [throw].  The last
    [memcpy] reads [decryptedCount] bytes from [buf.data()]: where the count
    exceeds the size of [buf] it reads on behind [buf], and [beyond] stands
    for the bytes that lie there at the time of the call, which the source
    does not determine. *)
Definition decryptReply (this : Context) (privkey : PrivateKey) (reply : nat)
    (dimension packing : Z) (beyond : bytes) : heap -> Outcome bytes * heap :=
  fun h =>
    let size := length (bytes_at h reply) in
    let buf := fresh (dom h) in
    let h := <[buf := Bytes (Buf.zeros size)]> h in
    let h := <[buf := Bytes (Buf.memcpy (bytes_at h buf) (bytes_at h reply) size)]> h in
    let '(count, h) :=
      epir_reply_decrypt_at h buf (Z.of_nat size) (sc_bytes privkey)
        dimension packing (this_mG this) (this_mmax this) in
    let decryptedCount := Int.int32 count in
    if decryptedCount <? 0 then (Thrown "Failed to decrypt.", delete buf h)
    else
      let ret := Buf.zeros (Z.to_nat decryptedCount) in
      let ret := Buf.memcpy ret (bytes_at h buf ++ beyond) (Z.to_nat decryptedCount) in
      (Returned ret, delete buf h).

End Methods.

(** A native core whose functions are given on byte lists ([EpirCore]), at
    addresses: it reads the objects it is pointed to and writes what it
    writes into the buffer it is handed. *)
Definition at_addresses (core : EpirCore) : Natives := {|
  epir_ecelgamal_decrypt_at h k c t n :=
    (epir_ecelgamal_decrypt k (bytes_at h c) (table_at h t) n, h);
  epir_reply_decrypt_at h buf size k d p t n :=
    let '(count, written) :=
      epir_reply_decrypt (bytes_at h buf) size k d p (table_at h t) n in
    (count, <[buf := Bytes (Buf.poke (bytes_at h buf) written)]> h)
|}.

End Mem.

(** ** The curve arithmetic (external collaborator)

    Modelled from the spec: the curve library under the native core is not in
    src.  §2 CurveEngine: the points of the group generated by [G], with
    addition, negation, scalar multiplication and the canonical encoding. *)

Class CurveEngine : Type := {
  Point : Type;
  G : Point;
  pzero : Point;
  padd : Point -> Point -> Point;
  pneg : Point -> Point;
  smul : Z -> Point -> Point;
  order : Z;
  point_size : nat;
  scalar_size : nat;
  encode : Point -> bytes;
  decode : bytes -> option Point;
  padd_assoc : forall a b c, padd a (padd b c) = padd (padd a b) c;
  padd_comm : forall a b, padd a b = padd b a;
  padd_zero : forall a, padd a pzero = a;
  padd_neg : forall a, padd a (pneg a) = pzero;
  smul_zero : forall P, smul 0 P = pzero;
  smul_succ : forall n P, 0 <= n -> smul (n + 1) P = padd (smul n P) P;
  (** [G] has order [order], which no 64-bit count reaches *)
  order_G : smul order G = pzero;
  order_min : forall n, 0 < n < order -> smul n G <> pzero;
  order_large : 2 ^ 64 <= order;
  encode_length : forall P, length (encode P) = point_size;
  decode_encode : forall P, decode (encode P) = Some P;
  point_size_positive : (0 < point_size)%nat
}.

(** Modelled from the spec: the integer a scalar's bytes stand for (§3
    Scalar).  The spec leaves the byte order open; it is little-endian here,
    and the properties below use only that the value is not negative. *)
Definition le_decode (b : bytes) : Z :=
  foldr (fun x acc => Z.of_N (Byte.to_N x) + 256 * acc) 0 b.

Definition byte_of_Z (z : Z) : byte := default x00 (Byte.of_N (Z.to_N z)).

Fixpoint le_encode (n : nat) (z : Z) : bytes :=
  match n with
  | O => []
  | S n' => byte_of_Z (z mod 256) :: le_encode n' (z / 256)
  end.

(** ** The native core, from its specification *)

Section Reference.
Context {curve : CurveEngine}.

(** The persisted table artifacts, by path ([None] is the default path),
    as the sequence of records each holds. *)
Variable files : option string -> list epir_mG_t.

(** Modelled from the spec: §4.1, the randomness of one encryption is the
    caller's [r], or a fresh scalar of the RNG when [r] is omitted. *)
Definition randomness (r : option bytes) (g : rng) : Z :=
  le_decode (default (g O) r).

(** Modelled from the spec: [epir_create_privkey] is not in src.
    §4.1 generatePrivateScalar: a random scalar from the RNG. *)
Definition ref_create_privkey (g : rng) : bytes := g O.

(** Modelled from the spec: [epir_pubkey_from_privkey] is not in src.
    §4.1 derivePublicKey: [scalar * G]. *)
Definition ref_pubkey_from_privkey (privkey : bytes) : bytes :=
  encode (smul (le_decode privkey) G).

(** Modelled from the spec: [epir_ecelgamal_encrypt] is not in src.
    §4.1 public-key path: [C1 = r*G], [C2 = m*G + r*PublicKey].  Nothing is
    written when the key bytes are no point. *)
Definition ref_encrypt (pubkey : bytes) (message : Z) (r : option bytes) (g : rng) : bytes :=
  match decode pubkey with
  | Some P =>
      let k := randomness r g in
      encode (smul k G) ++ encode (padd (smul message G) (smul k P))
  | None => []
  end.

(** Modelled from the spec: [epir_ecelgamal_encrypt_fast] is not in src.
    §4.1 private-key path: [C1 = r*G], [C2 = m*G + (r*privkey)*G], the
    product [r*privkey] being a scalar, that is an integer modulo the group
    order. *)
Definition ref_encrypt_fast (privkey : bytes) (message : Z) (r : option bytes) (g : rng) : bytes :=
  let k := randomness r g in
  encode (smul k G)
    ++ encode (padd (smul message G) (smul ((k * le_decode privkey) mod order) G)).

(** Modelled from the spec: [epir_mG_generate_no_sort] is not in src.
    §4.2 build: [i*G] for [i] in [0, mmax) by cumulative addition of [G],
    each point entered with its index, unsorted. *)
Fixpoint mG_accumulate (n : nat) (i : Z) (P : Point) : list epir_mG_t :=
  match n with
  | O => []
  | S n' => mk_mG (encode P) i :: mG_accumulate n' (i + 1) (padd P G)
  end.
Definition ref_mG_generate_no_sort (mmax : Z) : list epir_mG_t :=
  mG_accumulate (Z.to_nat mmax) 0 pzero.

(** Modelled from the spec: [epir_mG_load] is not in src.
    §6: the records of the artifact are read in file order into the table;
    the load counts as complete only when the artifact holds exactly the
    requested number of records, so the count reported is the artifact's. *)
Definition ref_mG_load (mmax : Z) (path : option string) : Z * list epir_mG_t :=
  let records := files path in
  (Z.of_nat (length records), take (Z.to_nat mmax) records).

(** Modelled from the spec: the table search inside [epir_ecelgamal_decrypt]
    is not in src.  §4.2 lookup: binary search over the sorted table by
    canonical byte encoding.  The interval halves at each step, so a fuel of
    the table's length is never used up. *)
Fixpoint bsearch (fuel : nat) (key : bytes) (tbl : list epir_mG_t) (lo hi : nat) : option Z :=
  match fuel with
  | O => None
  | S fuel' =>
      if (hi <=? lo)%nat then None
      else
        let mid := (lo + (hi - lo) / 2)%nat in
        match tbl !! mid with
        | None => None
        | Some e =>
            let c := Buf.memcmp key (point e) point_size in
            if c =? 0 then Some (scalar e)
            else if c <? 0 then bsearch fuel' key tbl lo mid
            else bsearch fuel' key tbl (S mid) hi
        end
  end.
Definition mG_lookup (key : bytes) (tbl : list epir_mG_t) : option Z :=
  bsearch (length tbl) key tbl 0 (length tbl).

(** Modelled from the spec: §3 Cipher, exactly two points [(C1, C2)]. *)
Definition cipher_points (cipher : bytes) : option (Point * Point) :=
  match decode (take point_size cipher),
        decode (take point_size (drop point_size cipher)) with
  | Some C1, Some C2 => Some (C1, C2)
  | _, _ => None
  end.

(** Modelled from the spec: §4.3 step 1, [M = C2 - privkey*C1]. *)
Definition unmask (privkey : bytes) (C : Point * Point) : Point :=
  padd (snd C) (pneg (smul (le_decode privkey) (fst C))).

(** Modelled from the spec: §4.3 decrypt, steps 1 to 3, over the first
    [mmax] entries of the table; [None] is the failed lookup. *)
Definition decrypt (privkey cipher : bytes) (tbl : list epir_mG_t) (mmax : Z) : option Z :=
  match cipher_points cipher with
  | Some C => mG_lookup (encode (unmask privkey C)) (take (Z.to_nat mmax) tbl)
  | None => None
  end.

(** Modelled from the spec: [epir_ecelgamal_decrypt] is not in src.
    §4.3 decrypt; the native function hands its result to the wrapper as
    an [int32_t], so a failure is a status among the integers.  The spec
    names no value for it; -1 stands here for whichever it is, and no claim
    below rests on the value itself. *)
Definition ref_decrypt (privkey cipher : bytes) (tbl : list epir_mG_t) (mmax : Z) : Z :=
  default (-1) (decrypt privkey cipher tbl mmax).

(** Modelled from the spec: [epir_selector_ciphers_count] and
    [epir_selector_elements_count] are not in src.  §4.4: one cipher per
    position of each dimension; one element per combination of positions. *)
Definition ref_ciphers_count (index_counts : list Z) (n_indexes : Z) : Z :=
  Int.uint64 (foldr Z.add 0 (take (Z.to_nat n_indexes) index_counts)).
Definition ref_elements_count (index_counts : list Z) (n_indexes : Z) : Z :=
  Int.uint64 (foldr Z.mul 1 (take (Z.to_nat n_indexes) index_counts)).

(** Modelled from the spec: §4.4 step 2, the digits of [idx], first
    dimension most significant (§8: counts [4, 4] and idx 6 give digits
    [1, 2]). *)
Fixpoint selector_digits (counts : list Z) (idx : Z) : list Z :=
  match counts with
  | [] => []
  | _ :: rest =>
      let p := foldr Z.mul 1 rest in
      (idx / p) :: selector_digits rest (idx mod p)
  end.

(** Modelled from the spec: §4.4 step 3, a one-hot vector per dimension. *)
Definition one_hot (count digit : Z) : list Z :=
  map (fun j => if Z.of_nat j =? digit then 1 else 0) (seq 0 (Z.to_nat count)).
Definition selector_choice (counts : list Z) (idx : Z) : list Z :=
  concat (zip_with one_hot counts (selector_digits counts idx)).

(** Modelled from the spec: [epir_selector_create] and
    [epir_selector_create_fast] are not in src.  §4.4 steps 1 to 5, [enc]
    being the encrypt call of the variant; nothing is written for an [idx]
    out of range. *)
Definition ref_selector_create_with (enc : bytes -> Z -> option bytes -> rng -> bytes)
    (key : bytes) (index_counts : list Z) (n_indexes idx : Z)
    (r : option bytes) (g : rng) : bytes :=
  let counts := take (Z.to_nat n_indexes) index_counts in
  if idx <? ref_elements_count index_counts n_indexes then
    concat (imap (fun i b => enc key b r (fun n => g (i + n)%nat))
              (selector_choice counts idx))
  else [].

(** Modelled from the spec: §4.5 step 1, the fixed-size cipher records of a
    buffer. *)
Definition records (size : nat) (buf : bytes) : list bytes :=
  map (fun i => take size (drop (i * size) buf)) (seq 0 (length buf / size)).

(** Modelled from the spec: §4.5 step 3, the [packing] bytes a decrypted
    integer carries, lowest first. *)
Definition unpack (packing : nat) (m : Z) : bytes :=
  map (fun p => byte_of_Z ((m / 256 ^ Z.of_nat p) mod 256)) (seq 0 packing).

(** Modelled from the spec: §4.5 steps 1 to 3 for one round, every record is
    decrypted, and one failure fails the round. *)
Definition reply_round (privkey : bytes) (packing : nat) (tbl : list epir_mG_t)
    (mmax : Z) (buf : bytes) : option bytes :=
  @concat byte <$> mapM (fun c => unpack packing <$> decrypt privkey c tbl mmax)
               (records (2 * point_size) buf).

Fixpoint reply_rounds (further : nat) (privkey : bytes) (packing : nat)
    (tbl : list epir_mG_t) (mmax : Z) (buf : bytes) : option bytes :=
  match reply_round privkey packing tbl mmax buf with
  | None => None
  | Some out =>
      match further with
      | O => Some out
      | S k => reply_rounds k privkey packing tbl mmax out
      end
  end.


(** Modelled from the spec: [epir_reply_decrypt] is not in src.
    §4.5: the records of the reply are decrypted and unpacked, whatever
    [dimension] is (step 2); with [dimension] reduction rounds the unpacked
    bytes of a round are the records of the next.  The result is the decoded
    length, or a negative status after a failed record. *)
Definition ref_reply_decrypt (buf : bytes) (reply_size : Z) (privkey : bytes)
    (dimension packing : Z) (tbl : list epir_mG_t) (mmax : Z) : Z * bytes :=
  match reply_rounds (Nat.pred (Z.to_nat dimension)) privkey (Z.to_nat packing)
          tbl mmax (take (Z.to_nat reply_size) buf) with
  | Some out => (Z.of_nat (length out), out)
  | None => (-1, [])
  end.

(** Modelled from the spec: §3 DecryptionTable, the order of the table is
    the ascending byte order of the points, which is [memcmp]'s. *)
Definition point_lt : relation epir_mG_t :=
  fun a b => Buf.memcmp (point a) (point b) point_size < 0.

(** Modelled from the spec: §3, the table entry of the message [m]
    associates the encoding of [m*G] with [m]. *)
Definition entry (m : Z) : epir_mG_t := mk_mG (encode (smul m G)) m.

(** Modelled from the spec: §3, a table that covers [0, mmax) holds the
    entries of the messages below [mmax], in ascending order of their
    points. *)
Definition table_covers (ctx : DecryptionContext) : Prop :=
  0 <= mmax ctx <= 2 ^ 64
  /\ StronglySorted point_lt (mG ctx)
  /\ mG ctx ≡ₚ ref_mG_generate_no_sort (mmax ctx).

Definition ReferenceCore : EpirCore := {|
  EPIR_SCALAR_SIZE := scalar_size;
  EPIR_POINT_SIZE := point_size;
  EPIR_CIPHER_SIZE := (2 * point_size)%nat;
  epir_create_privkey := ref_create_privkey;
  epir_pubkey_from_privkey := ref_pubkey_from_privkey;
  epir_ecelgamal_encrypt := ref_encrypt;
  epir_ecelgamal_encrypt_fast := ref_encrypt_fast;
  epir_selector_ciphers_count := ref_ciphers_count;
  epir_selector_elements_count := ref_elements_count;
  epir_selector_create := ref_selector_create_with ref_encrypt;
  epir_selector_create_fast := ref_selector_create_with ref_encrypt_fast;
  epir_mG_load := ref_mG_load;
  epir_mG_generate_no_sort := ref_mG_generate_no_sort;
  epir_ecelgamal_decrypt := ref_decrypt;
  epir_reply_decrypt := ref_reply_decrypt;
  cipher_size_points := eq_refl;
  point_size_pos := point_size_positive
|}.

End Reference.

(** ** The benchmark ([bench_ecelgamal_cpp.cpp]) *)

Module Bench.

(** [msg[i] = rand() & (EPIR_MG_MAX - 1)], stored in a [uint64_t]; [rnd] is
    what [rand()] returned. *)
Definition message (EPIR_MG_MAX rnd : Z) : Z :=
  Int.uint64 (Z.land rnd (EPIR_MG_MAX - 1)).

(** [decrypted != msg[i]], an [int32_t] against a [uint64_t]: the comparison
    is made in [uint64_t], to which [decrypted] is converted. *)
Definition mismatch (decrypted msg : Z) : bool :=
  negb (Int.uint64 decrypted =? msg).

End Bench.

(** * Properties *)

(** ** Machine integers and buffers *)

Section IntFacts.

Lemma int32_range z : - 2 ^ 31 <= Int.int32 z < 2 ^ 31.
Proof.
  unfold Int.int32. pose proof (Z.mod_pos_bound (z + 2 ^ 31) (2 ^ 32)). lia.
Qed.

Lemma int32_small z : - 2 ^ 31 <= z < 2 ^ 31 -> Int.int32 z = z.
Proof. intros Hz. unfold Int.int32. rewrite Z.mod_small; lia. Qed.

End IntFacts.

Section BufFacts.

Lemma length_poke {A} (buf data : list A) : length (Buf.poke buf data) = length buf.
Proof. unfold Buf.poke. rewrite length_app, length_take, length_drop. lia. Qed.

Lemma poke_same_length {A} (buf data : list A) :
  length data = length buf -> Buf.poke buf data = data.
Proof.
  intros H. unfold Buf.poke. rewrite take_ge, drop_ge by lia. apply app_nil_r.
Qed.

Lemma length_zeros n : length (Buf.zeros n) = n.
Proof. apply length_replicate. Qed.

Lemma length_memcpy dst src n : length (Buf.memcpy dst src n) = length dst.
Proof. apply length_poke. Qed.

Lemma memcpy_all src : Buf.memcpy (Buf.zeros (length src)) src (length src) = src.
Proof.
  unfold Buf.memcpy. rewrite take_ge by lia. apply poke_same_length.
  now rewrite length_zeros.
Qed.

Lemma memcpy_prefix src n :
  (n <= length src)%nat -> Buf.memcpy (Buf.zeros n) src n = take n src.
Proof.
  intros H. unfold Buf.memcpy. apply poke_same_length.
  rewrite length_zeros, length_take. lia.
Qed.

End BufFacts.

(** ** Buffers, position by position *)

Section PokeFacts.

Lemma lookup_poke {A} (buf data : list A) i :
  (i < length buf)%nat ->
  Buf.poke buf data !! i = if (i <? length data)%nat then data !! i else buf !! i.
Proof.
  intros Hi. unfold Buf.poke. destruct (Nat.ltb_spec i (length data)) as [Hd|Hd].
  - rewrite lookup_app_l by (rewrite length_take; lia). apply lookup_take_lt. lia.
  - rewrite lookup_app_r by (rewrite length_take; lia).
    rewrite length_take, lookup_drop. f_equal. lia.
Qed.

Lemma lookup_memcpy_zeros src n i :
  (i < n)%nat -> (i < length src)%nat ->
  Buf.memcpy (Buf.zeros n) src n !! i = src !! i.
Proof.
  intros Hn Hs. unfold Buf.memcpy.
  rewrite lookup_poke by (rewrite length_zeros; lia).
  rewrite length_take.
  destruct (Nat.ltb_spec i (n `min` length src)) as [_|H]; [|lia].
  now apply lookup_take_lt.
Qed.

Lemma memcpy_zeros_fixed b n :
  length b = n -> Buf.memcpy (Buf.zeros n) b n = b.
Proof. intros <-. apply memcpy_all. Qed.

End PokeFacts.

(** ** What the wrapper does over any native core *)

Section WrapperFacts.
Context {core : EpirCore}.

(** The selector vector is sized by the cipher count alone. *)
Lemma createSelector_returned (e : Encryptor) indexCounts idx r g :
  exists selector,
    createSelector e indexCounts idx r g = Returned selector
    /\ length selector = Z.to_nat (ciphersCount indexCounts).
Proof.
  destruct e; simpl;
    unfold PrivateKey_createSelector, PublicKey_createSelector;
    eexists; (split; [reflexivity|]);
    now rewrite length_poke, length_zeros.
Qed.

(** Short of one cipher per count: a cipher has at least two bytes. *)
Lemma createSelector_too_short (e : Encryptor) indexCounts idx r g selector :
  createSelector e indexCounts idx r g = Returned selector ->
  0 < ciphersCount indexCounts ->
  (length selector < Z.to_nat (ciphersCount indexCounts) * EPIR_CIPHER_SIZE)%nat.
Proof.
  intros Hsel Hpos.
  destruct (createSelector_returned e indexCounts idx r g) as (sel & H & Hlen).
  rewrite Hsel in H. injection H as <-. rewrite Hlen.
  pose proof cipher_size_points. pose proof point_size_pos. nia.
Qed.

(** The result of [decryptCipher] is an [int32_t], whatever the core. *)
Lemma decryptCipher_int32 privkey s :
  exists z, fst (decryptCipher privkey s) = Returned z /\ - 2 ^ 31 <= z < 2 ^ 31.
Proof. eexists. split; [reflexivity|apply int32_range]. Qed.

Lemma decryptCipher_store privkey s : snd (decryptCipher privkey s) = s.
Proof. reflexivity. Qed.


(** The two exits of [decryptReply], by the sign of the native count. *)
Lemma decryptReply_cases privkey dimension packing s :
  let reply := st_reply s in
  let res :=
    epir_reply_decrypt reply (Z.of_nat (length reply)) (sc_bytes privkey)
      dimension packing (mG (st_this s)) (mmax (st_this s)) in
  let count := Int.int32 (fst res) in
  (count < 0 ->
     fst (decryptReply privkey dimension packing s) = Thrown "Failed to decrypt.")
  /\ (0 <= count ->
     fst (decryptReply privkey dimension packing s)
     = Returned (Buf.memcpy (Buf.zeros (Z.to_nat count))
                   (Buf.poke reply (snd res)) (Z.to_nat count))).
Proof.
  intros reply res count. subst count res reply.
  unfold decryptReply. rewrite memcpy_all.
  destruct (epir_reply_decrypt _ _ _ _ _ _ _) as [count written]. simpl.
  split; intros Hc.
  - apply Z.ltb_lt in Hc. now rewrite Hc.
  - apply Z.ltb_ge in Hc. now rewrite Hc.
Qed.

End WrapperFacts.

(** ** The group of the curve *)

Section CurveFacts.
Context {curve : CurveEngine}.

Lemma padd_zero_l a : padd pzero a = a.
Proof. rewrite padd_comm. apply padd_zero. Qed.

Lemma padd_cancel_r a b c : padd a c = padd b c -> a = b.
Proof.
  intros H.
  rewrite <- (padd_zero a), <- (padd_zero b), <- (padd_neg c), !padd_assoc.
  now rewrite H.
Qed.

Lemma padd_neg_cancel a b : padd (padd a b) (pneg b) = a.
Proof. now rewrite <- padd_assoc, padd_neg, padd_zero. Qed.

Lemma smul_add a b P :
  0 <= a -> 0 <= b -> smul (a + b) P = padd (smul a P) (smul b P).
Proof.
  intros Ha Hb. revert b Hb. apply natlike_ind.
  - now rewrite Z.add_0_r, smul_zero, padd_zero.
  - intros b Hb IH. unfold Z.succ.
    rewrite Z.add_assoc, !smul_succ, IH by lia. symmetry. apply padd_assoc.
Qed.

Lemma smul_pzero n : 0 <= n -> smul n pzero = pzero.
Proof.
  revert n. apply natlike_ind.
  - apply smul_zero.
  - intros n Hn IH. unfold Z.succ. now rewrite smul_succ, IH, padd_zero.
Qed.

Lemma smul_mul a b P : 0 <= a -> 0 <= b -> smul (a * b) P = smul a (smul b P).
Proof.
  intros Ha Hb. revert a Ha. apply natlike_ind.
  - now rewrite Z.mul_0_l, !smul_zero.
  - intros a Ha IH. unfold Z.succ.
    rewrite Z.mul_add_distr_r, Z.mul_1_l, smul_add, IH, smul_succ by lia.
    reflexivity.
Qed.

Lemma smul_mod a : 0 <= a -> smul (a mod order) G = smul a G.
Proof.
  intros Ha. pose proof order_large as Ho.
  assert (0 < order) as Hpos by lia.
  rewrite (Z.div_mod a order) at 2 by lia.
  pose proof (Z.mod_pos_bound a order Hpos).
  pose proof (Z.div_pos a order Ha Hpos).
  rewrite smul_add by lia.
  rewrite (Z.mul_comm order), smul_mul, order_G, smul_pzero by lia.
  now rewrite padd_zero_l.
Qed.

Lemma smul_G_lt i j : 0 <= i -> i < j < order -> smul i G <> smul j G.
Proof.
  intros Hi Hj H.
  apply (order_min (j - i)); [lia|].
  apply (padd_cancel_r _ _ (smul i G)).
  rewrite <- smul_add, padd_zero_l by lia.
  rewrite Z.sub_add. now symmetry.
Qed.

Lemma encode_inj P Q : encode P = encode Q -> P = Q.
Proof.
  intros H. pose proof (decode_encode P) as HP.
  rewrite H, decode_encode in HP. now injection HP.
Qed.

(** ElGamal unmasking: [(m*G + k*(x*G)) - x*(k*G) = m*G]. *)
Lemma unmask_masked m k x :
  0 <= k -> 0 <= x ->
  padd (padd (smul m G) (smul k (smul x G))) (pneg (smul x (smul k G))) = smul m G.
Proof.
  intros Hk Hx.
  rewrite <- !smul_mul by lia. rewrite (Z.mul_comm k x). apply padd_neg_cancel.
Qed.

Lemma le_decode_nonneg b : 0 <= le_decode b.
Proof.
  induction b as [|x b IH]; simpl; [lia|].
  pose proof (N2Z.is_nonneg (Byte.to_N x)). lia.
Qed.

End CurveFacts.

(** ** [memcmp] as an order on encodings *)

Section MemcmpFacts.

Lemma to_N_inj x y : Byte.to_N x = Byte.to_N y -> x = y.
Proof.
  intros H. pose proof (Byte.of_to_N x) as Hx.
  rewrite H, Byte.of_to_N in Hx. now injection Hx.
Qed.

Lemma memcmp_refl a n : Buf.memcmp a a n = 0.
Proof.
  revert a. induction n as [|n IH]; intros [|x a]; simpl; try reflexivity.
  now rewrite N.eqb_refl.
Qed.

Lemma memcmp_opp a b n : Buf.memcmp b a n = - Buf.memcmp a b n.
Proof.
  revert a b. induction n as [|n IH]; intros [|x a] [|y b]; simpl; try reflexivity.
  rewrite (N.eqb_sym (Byte.to_N y)).
  destruct (Byte.to_N x =? Byte.to_N y)%N; [apply IH|lia].
Qed.

Lemma memcmp_eq a b n :
  length a = n -> length b = n -> Buf.memcmp a b n = 0 -> a = b.
Proof.
  revert a b. induction n as [|n IH]; intros [|x a] [|y b]; simpl;
    try discriminate; try reflexivity.
  intros Ha Hb.
  destruct (Byte.to_N x =? Byte.to_N y)%N eqn:E.
  - apply N.eqb_eq, to_N_inj in E. intros H. f_equal; [assumption|].
    apply IH; congruence.
  - apply N.eqb_neq in E. lia.
Qed.

Lemma memcmp_lt_trans a b c n :
  Buf.memcmp a b n < 0 -> Buf.memcmp b c n < 0 -> Buf.memcmp a c n < 0.
Proof.
  revert a b c. induction n as [|n IH]; intros [|x a] [|y b] [|z c]; simpl;
    try lia.
  destruct (Byte.to_N x =? Byte.to_N y)%N eqn:Exy;
    destruct (Byte.to_N y =? Byte.to_N z)%N eqn:Eyz;
    destruct (Byte.to_N x =? Byte.to_N z)%N eqn:Exz;
    rewrite ?N.eqb_eq, ?N.eqb_neq in *;
    first [lia | congruence | apply IH].
Qed.

End MemcmpFacts.

(** ** [std::sort] *)

Section SortFacts.
Context {A : Type} (comp : A -> A -> bool).

Hypothesis comp_trans : forall a b c, lt_by comp a b -> lt_by comp b c -> lt_by comp a c.

Lemma sort_insert_perm x l : sort_insert comp x l ≡ₚ x :: l.
Proof.
  induction l as [|y l IH]; simpl; [reflexivity|].
  destruct (comp x y); [reflexivity|].
  rewrite IH. apply Permutation_swap.
Qed.

Lemma std_sort_perm l : std_sort comp l ≡ₚ l.
Proof.
  induction l as [|x l IH]; simpl; [reflexivity|].
  now rewrite sort_insert_perm, IH.
Qed.

Lemma sort_insert_sorted x l :
  Forall (fun y => lt_by comp x y \/ lt_by comp y x) l ->
  StronglySorted (lt_by comp) l -> StronglySorted (lt_by comp) (sort_insert comp x l).
Proof.
  intros Hx Hl. induction Hl as [|y l Hl IH Hy]; simpl.
  - repeat constructor.
  - apply Forall_cons in Hx as [Hxy Hx].
    destruct (comp x y) eqn:E.
    + constructor; [now constructor|].
      constructor; [exact E|].
      eapply Forall_impl; [exact Hy|]. intros z Hz. now apply (comp_trans x y z).
    + constructor; [now apply IH|].
      rewrite sort_insert_perm. constructor; [|assumption].
      destruct Hxy as [Hxy|Hyx]; [|assumption].
      unfold lt_by in Hxy. congruence.
Qed.

(** Sorting a sequence whose elements are pairwise comparable. *)
Lemma std_sort_sorted l :
  ForallOrdPairs (fun a b => lt_by comp a b \/ lt_by comp b a) l ->
  StronglySorted (lt_by comp) (std_sort comp l).
Proof.
  induction 1 as [|x l Hx Hl IH]; simpl; [constructor|].
  apply sort_insert_sorted; [|assumption].
  now rewrite std_sort_perm.
Qed.

End SortFacts.

Section SortedFacts.
Context {A : Type} (R : relation A).

Lemma StronglySorted_lookup l i j a b :
  StronglySorted R l -> (i < j)%nat ->
  l !! i = Some a -> l !! j = Some b -> R a b.
Proof.
  intros Hl. revert i j. induction Hl as [|x l Hl IH Hx]; intros i j Hij Ha Hb.
  - discriminate.
  - destruct j as [|j]; [lia|]. destruct i as [|i]; simpl in *.
    + injection Ha as <-. rewrite Forall_forall in Hx. apply Hx.
      eapply list_elem_of_lookup_2. exact Hb.
    + apply (IH i j); [lia|assumption..].
Qed.

Lemma ForallOrdPairs_lookup l :
  (forall i j a b, (i < j)%nat -> l !! i = Some a -> l !! j = Some b -> R a b) ->
  ForallOrdPairs R l.
Proof.
  induction l as [|x l IH]; intros H; constructor.
  - apply Forall_forall. intros b Hb.
    apply list_elem_of_lookup_1 in Hb as [j Hj].
    apply (H O (S j)); [lia|reflexivity|exact Hj].
  - apply IH. intros i j a b Hij Ha Hb. apply (H (S i) (S j)); [lia|assumption..].
Qed.

End SortedFacts.

(** ** The reference core: table search *)

Section SearchFacts.
Context {curve : CurveEngine}.

Lemma point_lt_trans a b c : point_lt a b -> point_lt b c -> point_lt a c.
Proof. apply memcmp_lt_trans. Qed.

Lemma half_bounds lo hi :
  (lo < hi)%nat -> (lo <= lo + (hi - lo) / 2 < hi)%nat.
Proof.
  intros H. pose proof (Nat.div_mod (hi - lo) 2 ltac:(lia)) as Hd.
  pose proof (Nat.mod_upper_bound (hi - lo) 2 ltac:(lia)). lia.
Qed.

Lemma bsearch_finds fuel tbl k e : forall lo hi,
  StronglySorted point_lt tbl -> tbl !! k = Some e ->
  (lo <= k < hi)%nat -> (hi <= length tbl)%nat -> (hi - lo <= fuel)%nat ->
  bsearch fuel (point e) tbl lo hi = Some (scalar e).
Proof.
  induction fuel as [|fuel IH]; intros lo hi Hs Hk Hlo Hhi Hf; [lia|].
  cbn [bsearch]. destruct (Nat.leb_spec hi lo) as [|_]; [lia|].
  pose proof (half_bounds lo hi ltac:(lia)) as Hmid.
  set (mid := (lo + (hi - lo) / 2)%nat) in *.
  destruct (lookup_lt_is_Some_2 tbl mid ltac:(lia)) as [e' He']. rewrite He'.
  assert (mid = k -> e' = e) as Heq by (intros ->; congruence).
  assert ((mid < k)%nat -> 0 < Buf.memcmp (point e) (point e') point_size) as Hlt.
  { intros Hlt. pose proof (StronglySorted_lookup _ tbl mid k e' e Hs Hlt He' Hk) as H.
    unfold point_lt in H. rewrite (memcmp_opp (point e')). lia. }
  assert ((k < mid)%nat -> Buf.memcmp (point e) (point e') point_size < 0) as Hgt.
  { intros Hgt. exact (StronglySorted_lookup _ tbl k mid e e' Hs Hgt Hk He'). }
  destruct (Z.eqb_spec (Buf.memcmp (point e) (point e') point_size) 0) as [E0|E0].
  - destruct (Nat.lt_trichotomy mid k) as [H|[H|H]]; [| |].
    + specialize (Hlt H). lia.
    + now rewrite (Heq H).
    + specialize (Hgt H). lia.
  - destruct (Z.ltb_spec (Buf.memcmp (point e) (point e') point_size) 0) as [E|E].
    + apply IH; try assumption; [|lia|lia].
      destruct (Nat.lt_trichotomy mid k) as [H|[H|H]]; [| |lia].
      * specialize (Hlt H). lia.
      * rewrite (Heq H), memcmp_refl in E0. lia.
    + apply IH; try assumption; [|lia].
      destruct (Nat.lt_trichotomy mid k) as [H|[H|H]]; [lia| |].
      * rewrite (Heq H), memcmp_refl in E0. lia.
      * specialize (Hgt H). lia.
Qed.



Lemma mG_lookup_present tbl e :
  StronglySorted point_lt tbl -> e ∈ tbl ->
  mG_lookup (point e) tbl = Some (scalar e).
Proof.
  intros Hs He. apply list_elem_of_lookup_1 in He as [k Hk].
  pose proof (lookup_lt_Some _ _ _ Hk).
  apply (bsearch_finds _ tbl k); try assumption; lia.
Qed.

End SearchFacts.

(** ** The reference core: tables, ciphers *)

Section TableFacts.
Context {curve : CurveEngine}.
Variable files : option string -> list epir_mG_t.
Let core : EpirCore := ReferenceCore files.
Local Existing Instance core.

Lemma mG_less_point_lt a b : lt_by mG_less a b <-> point_lt a b.
Proof. unfold lt_by, mG_less, point_lt. simpl. apply Z.ltb_lt. Qed.

Lemma mG_less_trans a b c :
  lt_by mG_less a b -> lt_by mG_less b c -> lt_by mG_less a c.
Proof. rewrite !mG_less_point_lt. apply point_lt_trans. Qed.

Lemma sorted_point_lt l : StronglySorted (lt_by mG_less) l -> StronglySorted point_lt l.
Proof.
  induction 1 as [|x l Hl IH Hx]; constructor; [assumption|].
  eapply Forall_impl; [exact Hx|]. intros y. apply mG_less_point_lt.
Qed.

Lemma mG_accumulate_entries n : forall i,
  0 <= i ->
  mG_accumulate n i (smul i G) = (fun j => entry (i + Z.of_nat j)) <$> seq 0 n.
Proof.
  induction n as [|n IH]; intros i Hi; [reflexivity|].
  cbn [mG_accumulate seq fmap list_fmap].
  rewrite <- smul_succ, IH by lia.
  unfold entry at 2. rewrite Z.add_0_r. f_equal.
  rewrite <- fmap_S_seq, <- list_fmap_compose.
  apply list_fmap_ext. intros _ j _. simpl. f_equal. lia.
Qed.

Lemma no_sort_entries mmax :
  ref_mG_generate_no_sort mmax = (fun j => entry (Z.of_nat j)) <$> seq 0 (Z.to_nat mmax).
Proof.
  unfold ref_mG_generate_no_sort. rewrite <- smul_zero with (P := G).
  now rewrite mG_accumulate_entries.
Qed.

Lemma length_no_sort mmax : length (ref_mG_generate_no_sort mmax) = Z.to_nat mmax.
Proof. now rewrite no_sort_entries, length_fmap, length_seq. Qed.

Lemma no_sort_lookup mmax j e :
  ref_mG_generate_no_sort mmax !! j = Some e ->
  e = entry (Z.of_nat j) /\ (j < Z.to_nat mmax)%nat.
Proof.
  rewrite no_sort_entries, list_lookup_fmap. intros H.
  apply fmap_Some in H as (i & Hi & ->).
  apply lookup_seq in Hi as [-> Hlt]. now split.
Qed.

Lemma elem_of_no_sort mmax m :
  0 <= m < mmax -> entry m ∈ ref_mG_generate_no_sort mmax.
Proof.
  intros Hm. rewrite no_sort_entries.
  apply list_elem_of_fmap. exists (Z.to_nat m). split.
  - now rewrite Z2Nat.id by lia.
  - apply elem_of_seq. lia.
Qed.

Lemma entries_distinct i j :
  0 <= i -> i < j < order -> point_lt (entry i) (entry j) \/ point_lt (entry j) (entry i).
Proof.
  intros Hi Hj. unfold point_lt, entry. simpl.
  destruct (Z.lt_trichotomy
              (Buf.memcmp (encode (smul i G)) (encode (smul j G)) point_size) 0)
    as [H|[H|H]].
  - now left.
  - exfalso. apply memcmp_eq in H; try apply encode_length.
    apply encode_inj in H. now apply (smul_G_lt i j).
  - right. rewrite memcmp_opp. lia.
Qed.

Lemma no_sort_comparable mmax :
  mmax <= 2 ^ 64 ->
  ForallOrdPairs (fun a b => lt_by mG_less a b \/ lt_by mG_less b a)
    (ref_mG_generate_no_sort mmax).
Proof.
  intros Hmax. apply ForallOrdPairs_lookup. intros i j a b Hij Ha Hb.
  apply no_sort_lookup in Ha as [-> _]. apply no_sort_lookup in Hb as [-> Hj].
  rewrite !mG_less_point_lt. pose proof order_large.
  apply entries_distinct; lia.
Qed.

Lemma generate_returned mmax :
  DecryptionContext_generate mmax
  = Returned (mk_ctx mmax (std_sort mG_less (ref_mG_generate_no_sort mmax))).
Proof.
  unfold DecryptionContext_generate. simpl epir_mG_generate_no_sort.
  rewrite poke_same_length; [reflexivity|].
  now rewrite length_no_sort, length_replicate.
Qed.

Lemma generate_covers n :
  0 <= n <= 2 ^ 64 ->
  table_covers (mk_ctx n (std_sort mG_less (ref_mG_generate_no_sort n))).
Proof.
  intros Hn. split; [exact Hn|]. split; simpl.
  - apply sorted_point_lt, std_sort_sorted.
    + exact mG_less_trans.
    + apply no_sort_comparable. lia.
  - apply std_sort_perm.
Qed.

Lemma covers_lookup ctx m :
  table_covers ctx -> 0 <= m < mmax ctx ->
  mG_lookup (encode (smul m G)) (take (Z.to_nat (mmax ctx)) (mG ctx)) = Some m.
Proof.
  intros (Hn & Hs & Hp) Hm.
  rewrite take_ge by (rewrite Hp, length_no_sort; lia).
  apply (mG_lookup_present (mG ctx) (entry m) Hs).
  rewrite Hp. now apply elem_of_no_sort.
Qed.

Lemma cipher_points_encode C1 C2 :
  cipher_points (encode C1 ++ encode C2) = Some (C1, C2).
Proof.
  unfold cipher_points.
  rewrite take_app_length' by (now rewrite encode_length).
  rewrite drop_app_length' by (now rewrite encode_length).
  rewrite take_ge by (rewrite encode_length; lia).
  now rewrite !decode_encode.
Qed.

Lemma length_cipher C1 C2 : length (encode C1 ++ encode C2) = EPIR_CIPHER_SIZE.
Proof. rewrite length_app, !encode_length. simpl. lia. Qed.

Lemma PrivateKey_encrypt_bytes x m r g :
  let k := randomness r g in
  PrivateKey_encrypt x m r g
  = Returned (encode (smul k G)
                ++ encode (padd (smul m G) (smul (k * le_decode (sc_bytes x)) G))).
Proof.
  intros k. unfold PrivateKey_encrypt. simpl epir_ecelgamal_encrypt_fast.
  unfold ref_encrypt_fast. fold k.
  rewrite poke_same_length by (now rewrite length_cipher, length_zeros).
  rewrite smul_mod; [reflexivity|].
  apply Z.mul_nonneg_nonneg; apply le_decode_nonneg.
Qed.

Lemma PublicKey_of_privkey_bytes x :
  pk_bytes (PublicKey_of_privkey x) = encode (smul (le_decode (sc_bytes x)) G).
Proof.
  unfold PublicKey_of_privkey. simpl.
  apply poke_same_length. now rewrite encode_length, length_zeros.
Qed.

Lemma PublicKey_encrypt_bytes x m r g :
  let k := randomness r g in
  PublicKey_encrypt (PublicKey_of_privkey x) m r g
  = Returned (encode (smul k G)
                ++ encode (padd (smul m G) (smul k (smul (le_decode (sc_bytes x)) G)))).
Proof.
  intros k. unfold PublicKey_encrypt. rewrite PublicKey_of_privkey_bytes.
  simpl epir_ecelgamal_encrypt. unfold ref_encrypt. rewrite decode_encode. fold k.
  now rewrite poke_same_length by (now rewrite length_cipher, length_zeros).
Qed.

(** Decrypting a well-formed cipher of [m] over a covering table. *)
Lemma decrypt_masked ctx x m k :
  table_covers ctx -> 0 <= m < mmax ctx -> 0 <= k ->
  decrypt x
    (encode (smul k G) ++ encode (padd (smul m G) (smul k (smul (le_decode x) G))))
    (mG ctx) (mmax ctx) = Some m.
Proof.
  intros Hc Hm Hk. unfold decrypt. rewrite cipher_points_encode.
  unfold unmask. simpl fst. simpl snd.
  rewrite unmask_masked by (try apply le_decode_nonneg; lia).
  now apply covers_lookup.
Qed.

End TableFacts.

(** ** Little-endian encodings *)

Section EncodingFacts.

Lemma byte_of_Z_value z : 0 <= z < 256 -> Z.of_N (Byte.to_N (byte_of_Z z)) = z.
Proof.
  intros Hz. unfold byte_of_Z.
  destruct (Byte.of_N (Z.to_N z)) as [b|] eqn:E; simpl.
  - apply Byte.to_of_N in E. rewrite E. lia.
  - apply Byte.of_N_None_iff in E. lia.
Qed.

Lemma length_le_encode n z : length (le_encode n z) = n.
Proof. revert z. induction n as [|n IH]; intros z; simpl; [|rewrite IH]; reflexivity. Qed.

Lemma le_decode_encode n : forall z,
  0 <= z < 256 ^ Z.of_nat n -> le_decode (le_encode n z) = z.
Proof.
  induction n as [|n IH]; intros z Hz.
  - simpl in *. lia.
  - rewrite Nat2Z.inj_succ, Z.pow_succ_r in Hz by lia.
    cbn [le_encode le_decode foldr]. fold (le_decode (le_encode n (z / 256))).
    pose proof (Z.mod_pos_bound z 256 ltac:(lia)).
    assert (0 <= z / 256 < 256 ^ Z.of_nat n) as Hq.
    { split; [apply Z.div_pos; lia|apply Z.div_lt_upper_bound; lia]. }
    rewrite byte_of_Z_value, IH by assumption.
    pose proof (Z.div_mod z 256 ltac:(lia)). lia.
Qed.

End EncodingFacts.

(** ** A model of the curve

    The cyclic group of the integers modulo the order of the Ed25519 base
    point, with a generator whose multiples fall in no particular order, and
    points and scalars encoded on 32 bytes. *)

Module ModelCurve.

Definition L : Z := 2 ^ 252 + 27742317777372353535851937790883648493.

Definition g : Z :=
  15112221349535400772501151409588531511454012693041857206046113283949847762202.

Definition G : Zmod L := Zmod.of_Z L g.

Definition encode (P : Zmod L) : bytes := le_encode 32 (Zmod.to_Z P).

Definition decode (b : bytes) : option (Zmod L) :=
  if (length b =? 32)%nat && (le_decode b <? L)
  then Some (Zmod.of_Z L (le_decode b)) else None.

Definition smul (n : Z) (P : Zmod L) : Zmod L := Zmod.mul (Zmod.of_Z L n) P.

Lemma L_pos : 0 < L.
Proof. reflexivity. Qed.

Lemma L_bound : L < 256 ^ 32.
Proof. reflexivity. Qed.

Lemma model_smul_succ n P : 0 <= n -> smul (n + 1) P = Zmod.add (smul n P) P.
Proof.
  intros _. unfold smul.
  now rewrite Zmod.of_Z_add, Zmod.mul_add_l, Zmod.of_Z_1, Zmod.mul_1_l.
Qed.

Lemma model_order_G : smul L G = Zmod.zero.
Proof. apply Zmod.unsigned_inj. reflexivity. Qed.

Lemma model_order_min n : 0 < n < L -> smul n G <> Zmod.zero.
Proof.
  intros Hn H. unfold smul, G in H. rewrite <- Zmod.of_Z_mul in H.
  apply (f_equal Zmod.to_Z) in H. rewrite Zmod.unsigned_of_Z in H.
  change (Zmod.to_Z (@Zmod.zero L)) with 0 in H.
  apply Z.mod_divide in H; [|discriminate].
  rewrite Z.mul_comm in H. apply Z.gauss in H; [|reflexivity].
  apply Z.divide_pos_le in H; lia.
Qed.

Lemma model_decode_encode P : decode (encode P) = Some P.
Proof.
  unfold decode, encode. rewrite length_le_encode.
  pose proof (Zmod.unsigned_pos_bound P L_pos) as HP. pose proof L_bound.
  rewrite le_decode_encode by (change (Z.of_nat 32) with 32; lia).
  destruct (Z.ltb_spec (Zmod.to_Z P) L); [|lia].
  simpl. now rewrite Zmod.of_Z_unsigned.
Qed.

#[refine, export] Instance curve : CurveEngine := {
  Point := Zmod L;
  G := G;
  pzero := Zmod.zero;
  padd := Zmod.add;
  pneg := Zmod.opp;
  smul := smul;
  order := L;
  point_size := 32;
  scalar_size := 32;
  encode := encode;
  decode := decode
}.
Proof.
  - apply Zmod.add_assoc.
  - apply Zmod.add_comm.
  - apply Zmod.add_0_r.
  - apply Zmod.add_opp_same_r.
  - intros P. apply Zmod.mul_0_l.
  - exact model_smul_succ.
  - exact model_order_G.
  - exact model_order_min.
  - intros H. discriminate H.
  - intros P. apply length_le_encode.
  - exact model_decode_encode.
  - lia.
Defined.

End ModelCurve.

(** ** Cipher records of a reply *)

Section ReplyFacts.






End ReplyFacts.

(** * The claims *)

(** ** Claims settled by the wrapper alone *)

Section WrapperClaims.
Context {core : EpirCore}.

(** C4. Loading [mG.bin]: the constructor throws exactly when the number of
    records the native loader reports differs from the requested [mmax];
    a context that is constructed has its [mmax] equal to the request and a
    table of exactly [mmax] entries, so no shorter table is ever handed
    out. *)
Theorem DecryptionContext_load_count_check (path : string) (n : Z) :
  0 <= n ->
  let elemsRead :=
    Int.size_t (fst (epir_mG_load n (if String.eqb path "" then None else Some path))) in
  (elemsRead <> n -> DecryptionContext_load path n = Thrown "Failed to load mG.bin.")
  /\ (forall ctx,
        DecryptionContext_load path n = Returned ctx ->
        elemsRead = n /\ mmax ctx = n /\ Z.of_nat (length (mG ctx)) = n).
Proof.
  intros Hn elemsRead. subst elemsRead. unfold DecryptionContext_load.
  destruct (epir_mG_load n _) as [count read]. simpl fst.
  destruct (Z.eqb_spec (Int.size_t count) n) as [E|E]; simpl; split.
  - intros H. contradiction.
  - intros ctx [= <-]. simpl. rewrite length_poke, length_replicate. lia.
  - reflexivity.
  - intros ctx H. discriminate H.
Qed.


End WrapperClaims.

(** ** Claims that rest on the native core *)

Section CoreClaims.
Context {curve : CurveEngine}.
Variable files : option string -> list epir_mG_t.
Let core : EpirCore := ReferenceCore files.
Local Existing Instance core.

Lemma decryptCipher_value privkey s :
  decryptCipher privkey s
  = (Returned (Int.int32 (default (-1)
       (decrypt (sc_bytes privkey) (st_cipher s) (mG (st_this s)) (mmax (st_this s))))), s).
Proof. reflexivity. Qed.

Lemma reply_rounds_fail further x packing tbl n buf :
  reply_round x packing tbl n buf = None ->
  reply_rounds further x packing tbl n buf = None.
Proof. intros H. destruct further; simpl; now rewrite H. Qed.






(** Decrypting over the table the constructor generates. *)
Lemma decryptCipher_generated x m k n reply :
  0 <= n <= 2 ^ 64 -> 0 <= m < n -> 0 <= k ->
  fst (decryptCipher x
         (mk_Store (mk_ctx n (std_sort mG_less (ref_mG_generate_no_sort n)))
            (encode (smul k G)
               ++ encode (padd (smul m G) (smul k (smul (le_decode (sc_bytes x)) G))))
            reply))
  = Returned (Int.int32 m).
Proof.
  intros Hn Hm Hk. unfold core. rewrite decryptCipher_value.
  pose proof (decrypt_masked (mk_ctx n (std_sort mG_less (ref_mG_generate_no_sort n)))
                (sc_bytes x) m k (generate_covers files n Hn) Hm Hk) as H.
  simpl in H. simpl. unfold core. now rewrite H.
Qed.


(** C7. With the randomness [r] supplied, the accelerated encryption under
    the private key yields [C1 = r*G], [C2 = m*G + (r*privkey)*G], and the
    public-key encryption under the derived key [privkey*G] with the same
    [r] yields the same cipher. *)
Theorem encrypt_fast_agrees (privkey : PrivateKey) (m : Z) (r : bytes) (g g' : rng) :
  let k := le_decode r in
  let x := le_decode (sc_bytes privkey) in
  PrivateKey_encrypt privkey m (Some r) g
  = Returned (encode (smul k G) ++ encode (padd (smul m G) (smul (k * x) G)))
  /\ PublicKey_encrypt (PublicKey_of_privkey privkey) m (Some r) g'
     = PrivateKey_encrypt privkey m (Some r) g.
Proof.
  intros k x. unfold core. rewrite PrivateKey_encrypt_bytes, PublicKey_encrypt_bytes.
  unfold randomness. simpl default. fold k x. split; [reflexivity|].
  rewrite <- smul_mul by apply le_decode_nonneg. reflexivity.
Qed.

(** C2, within the range of the result type.  Over a table that covers
    [0, mmax), for a message [m] in [0, mmax) that an [int32_t] holds, the
    cipher made by either encrypt variant, under any randomness, decrypts to
    exactly [m]. *)
Theorem decryptCipher_roundtrip (privkey : PrivateKey) (m : Z) (r : option bytes)
    (g : rng) (s : Store) :
  table_covers (st_this s) ->
  0 <= m < mmax (st_this s) ->
  m < 2 ^ 31 ->
  PublicKey_encrypt (PublicKey_of_privkey privkey) m r g = Returned (st_cipher s)
  \/ PrivateKey_encrypt privkey m r g = Returned (st_cipher s) ->
  fst (decryptCipher privkey s) = Returned m.
Proof.
  intros Hc Hm H31 Henc. unfold core in *.
  assert (st_cipher s
          = encode (smul (randomness r g) G)
              ++ encode (padd (smul m G)
                           (smul (randomness r g) (smul (le_decode (sc_bytes privkey)) G))))
    as Hcipher.
  { destruct Henc as [H|H].
    - rewrite PublicKey_encrypt_bytes in H. now injection H.
    - rewrite PrivateKey_encrypt_bytes in H.
      rewrite smul_mul in H by apply le_decode_nonneg. now injection H. }
  rewrite decryptCipher_value, Hcipher.
  rewrite decrypt_masked by (try apply le_decode_nonneg; assumption).
  simpl. now rewrite int32_small by lia.
Qed.


(** C5, for the two constructors.  A generated table is the sorted
    accumulation, sorted once after all points are there, and each of its
    entries is strictly below the next in the [memcmp] order of the points.
    A loaded table holds what the loader read, in file order. *)
Theorem generated_table_sorted (n : Z) :
  0 <= n <= 2 ^ 64 ->
  (exists ctx,
      DecryptionContext_generate n = Returned ctx
      /\ mG ctx = std_sort mG_less (epir_mG_generate_no_sort n)
      /\ forall i a b, mG ctx !! i = Some a -> mG ctx !! S i = Some b ->
                       Buf.memcmp (point a) (point b) EPIR_POINT_SIZE < 0)
  /\ (forall path ctx,
        DecryptionContext_load path n = Returned ctx ->
        mG ctx = Buf.poke (replicate (Z.to_nat n) zero_mG)
                   (take (Z.to_nat n)
                      (files (if String.eqb path "" then None else Some path)))).
Proof.
  intros Hn. unfold core. split.
  - eexists. split; [apply generate_returned|]. split; [reflexivity|].
    intros i a b Ha Hb.
    destruct (generate_covers files n Hn) as (_ & Hs & _).
    exact (StronglySorted_lookup _ _ i (S i) a b Hs ltac:(lia) Ha Hb).
  - intros path ctx. unfold DecryptionContext_load.
    simpl epir_mG_load. unfold ref_mG_load.
    destruct (negb _); [discriminate|]. now intros [= <-].
Qed.


End CoreClaims.

(** ** Claims on the memory the decryption methods reach *)

Section MemoryFacts.
Context {natives : Mem.Natives}.

(** The working copy, once filled: an object of its own with the bytes of
    the reply. *)
Lemma working_copy (h : Mem.heap) (reply : nat) :
  let size := length (Mem.bytes_at h reply) in
  let buf := fresh (dom h) in
  let h1 := <[buf := Mem.Bytes (Buf.zeros size)]> h in
  <[buf := Mem.Bytes (Buf.memcpy (Mem.bytes_at h1 buf) (Mem.bytes_at h1 reply) size)]> h1
  = <[buf := Mem.Bytes (Mem.bytes_at h reply)]> h.
Proof.
  intros size buf h1.
  assert (Mem.bytes_at h1 buf = Buf.zeros size) as ->.
  { unfold Mem.bytes_at, h1. now rewrite lookup_insert_eq. }
  assert (Mem.bytes_at h1 reply = Mem.bytes_at h reply) as ->.
  { unfold Mem.bytes_at at 1. subst h1. destruct (decide (reply = buf)) as [->|Hne].
    - rewrite lookup_insert_eq. subst size. unfold Mem.bytes_at.
      assert (h !! buf = None) as -> by apply not_elem_of_dom, is_fresh.
      reflexivity.
    - now rewrite lookup_insert_ne by congruence. }
  subst h1. rewrite insert_insert_eq. f_equal. f_equal. apply memcpy_all.
Qed.

(** [decryptReply], by the sign of the native count. *)
Lemma decryptReply_at this privkey reply dimension packing beyond (h : Mem.heap) :
  let buf := fresh (dom h) in
  let res :=
    Mem.epir_reply_decrypt_at (<[buf := Mem.Bytes (Mem.bytes_at h reply)]> h) buf
      (Z.of_nat (length (Mem.bytes_at h reply))) (sc_bytes privkey) dimension packing
      (Mem.this_mG this) (Mem.this_mmax this) in
  let count := Int.int32 (fst res) in
  Mem.decryptReply this privkey reply dimension packing beyond h
  = if count <? 0 then (Thrown "Failed to decrypt.", delete buf (snd res))
    else (Returned (Buf.memcpy (Buf.zeros (Z.to_nat count))
                      (Mem.bytes_at (snd res) buf ++ beyond) (Z.to_nat count)),
          delete buf (snd res)).
Proof.
  intros buf res count. unfold Mem.decryptReply. cbv zeta.
  rewrite (working_copy h reply). fold buf. subst count res.
  now destruct (Mem.epir_reply_decrypt_at _ _ _ _ _ _ _ _) as [c h3].
Qed.

Hypothesis native_contract : Mem.contract.





End MemoryFacts.

(** A core given on byte lists keeps the contract at addresses, and the
    methods over memory then do what the methods over byte lists do. *)
Section AtAddresses.
Context (core : EpirCore).

Lemma at_addresses_contract : @Mem.contract (Mem.at_addresses core).
Proof.
  split; simpl.
  - reflexivity.
  - intros h buf size k d p t n q Hne.
    destruct (epir_reply_decrypt _ _ _ _ _ _ _) as [count written]. simpl.
    now rewrite lookup_insert_ne by congruence.
  - intros h buf size k d p t n.
    destruct (epir_reply_decrypt _ _ _ _ _ _ _) as [count written]. simpl.
    unfold Mem.bytes_at at 1. rewrite lookup_insert_eq. apply length_poke.
Qed.

Lemma decryptCipher_at_addresses this privkey cipher reply (h : Mem.heap) :
  fst (@Mem.decryptCipher (Mem.at_addresses core) this privkey cipher h)
  = fst (decryptCipher privkey
           (mk_Store (mk_ctx (Mem.this_mmax this) (Mem.table_at h (Mem.this_mG this)))
              (Mem.bytes_at h cipher) reply)).
Proof. reflexivity. Qed.

Lemma decryptReply_at_addresses this privkey cipher reply dimension packing (h : Mem.heap) :
  fst (@Mem.decryptReply (Mem.at_addresses core) this privkey reply dimension packing [] h)
  = fst (decryptReply privkey dimension packing
           (mk_Store (mk_ctx (Mem.this_mmax this) (Mem.table_at h (Mem.this_mG this)))
              cipher (Mem.bytes_at h reply))).
Proof.
  rewrite decryptReply_at. cbv zeta. unfold decryptReply. cbn [st_reply st_this mG mmax].
  rewrite memcpy_all. simpl Mem.epir_reply_decrypt_at.
  set (buf := fresh (dom h)).
  assert (Mem.bytes_at (<[buf := Mem.Bytes (Mem.bytes_at h reply)]> h) buf
          = Mem.bytes_at h reply) as ->.
  { unfold Mem.bytes_at at 1. now rewrite lookup_insert_eq. }
  assert (Mem.table_at (<[buf := Mem.Bytes (Mem.bytes_at h reply)]> h) (Mem.this_mG this)
          = Mem.table_at h (Mem.this_mG this)) as ->.
  { unfold Mem.table_at. destruct (decide (Mem.this_mG this = buf)) as [->|Hne].
    - rewrite lookup_insert_eq.
      assert (h !! buf = None) as -> by apply not_elem_of_dom, is_fresh.
      reflexivity.
    - now rewrite lookup_insert_ne by congruence. }
  destruct (epir_reply_decrypt _ _ _ _ _ _ _) as [count written]. simpl.
  destruct (Int.int32 count <? 0); [reflexivity|]. simpl.
  unfold Mem.bytes_at. rewrite lookup_insert_eq. now rewrite app_nil_r.
Qed.

End AtAddresses.

Section MemoryClaims.
Context {natives : Mem.Natives}.

(** C10.  With native functions that keep to what the call sites let them do
    ([Mem.contract]), neither [decryptCipher] nor [decryptReply] changes any
    object: the heap a call leaves is the heap it found.  The reply decoder,
    which overwrites the buffer it is handed, is handed the working copy
    [buf], an object of its own that is released on the way out; so the
    caller's reply, the caller's cipher and the array of the table hold
    after the call what they held before.  [mmax] is a [const] member. *)
Theorem decrypt_leaves_memory (this : Mem.Context) (privkey : PrivateKey)
    (cipher reply : nat) (dimension packing : Z) (beyond : bytes) (h : Mem.heap) :
  Mem.contract ->
  let h1 := snd (Mem.decryptCipher this privkey cipher h) in
  let h2 := snd (Mem.decryptReply this privkey reply dimension packing beyond h) in
  (h1 = h /\ h2 = h)
  /\ Mem.bytes_at h2 reply = Mem.bytes_at h reply
  /\ Mem.bytes_at h1 cipher = Mem.bytes_at h cipher
  /\ Mem.table_at h1 (Mem.this_mG this) = Mem.table_at h (Mem.this_mG this)
  /\ Mem.table_at h2 (Mem.this_mG this) = Mem.table_at h (Mem.this_mG this).
Proof.
  intros HN h1 h2.
  assert (h1 = h) as E1.
  { subst h1. unfold Mem.decryptCipher.
    pose proof (Mem.decrypt_const HN h (sc_bytes privkey) cipher
                  (Mem.this_mG this) (Mem.this_mmax this)) as Hconst.
    destruct (Mem.epir_ecelgamal_decrypt_at _ _ _ _ _) as [status h']. exact Hconst. }
  assert (h2 = h) as E2.
  { subst h2. rewrite decryptReply_at. cbv zeta.
    set (buf := fresh (dom h)).
    assert (h !! buf = None) as Hfresh by apply not_elem_of_dom, is_fresh.
    set (res := Mem.epir_reply_decrypt_at _ _ _ _ _ _ _ _).
    assert (delete buf (snd res) = h) as Hreleased.
    { apply map_eq. intros q. destruct (decide (q = buf)) as [->|Hne].
      - now rewrite lookup_delete_eq, Hfresh.
      - rewrite lookup_delete_ne by congruence. subst res.
        rewrite (Mem.reply_decrypt_frame HN) by exact Hne.
        now rewrite lookup_insert_ne by congruence. }
    now destruct (Int.int32 (fst res) <? 0). }
  rewrite E1, E2. repeat split.
Qed.


End MemoryClaims.

(** ** The claims at concrete inputs *)

Module Fixture.

#[local] Existing Instance ModelCurve.curve.

(** Two table artifacts of two records each: one in order, one not. *)
Definition files (path : option string) : list epir_mG_t :=
  match path with
  | None => []
  | Some p =>
      if String.eqb p "mG.bin" then [entry 0; entry 1]
      else if String.eqb p "unsorted.bin" then [entry 2; entry 1]
      else []
  end.

#[local] Instance core : EpirCore := ReferenceCore files.

Definition privkey : PrivateKey := mk_Scalar (le_encode 32 7).
Definition pubkey : PublicKey := PublicKey_of_privkey privkey.
Definition r11 : bytes := le_encode 32 11.
Definition g100 : rng := fun n => le_encode 32 (Z.of_nat n + 100).

(** The table generated for [mmax = 8]. *)
Definition ctx8 : DecryptionContext :=
  mk_ctx 8 (std_sort mG_less (ref_mG_generate_no_sort 8)).

(** The cipher of [m] under the public key, with randomness [r11]. *)
Definition cipher_of (m : Z) : bytes :=
  encode (smul (le_decode r11) G)
    ++ encode (padd (smul m G) (smul (le_decode r11) (smul (le_decode (sc_bytes privkey)) G))).

Lemma PublicKey_encrypt_cipher_of m :
  PublicKey_encrypt pubkey m (Some r11) g100 = Returned (cipher_of m).
Proof. apply (PublicKey_encrypt_bytes files privkey m (Some r11) g100). Qed.

(** C1. At [indexCounts = [4, 4]] and [idx = 6], a valid index, both
    variants of [createSelector] return a buffer of 8 bytes, the number of
    ciphers, where the 8 ciphers of the selector take 8 * 64 = 512 bytes. *)
Theorem createSelector_length_is_cipher_count :
  6 < elementsCount [4; 4]
  /\ (exists selector,
        createSelector (WithPublicKey pubkey) [4; 4] 6 (Some r11) g100 = Returned selector
        /\ length selector = 8%nat)
  /\ (exists selector,
        createSelector (WithPrivateKey privkey) [4; 4] 6 (Some r11) g100 = Returned selector
        /\ length selector = 8%nat)
  /\ ciphersCount [4; 4] * Z.of_nat EPIR_CIPHER_SIZE = 512.
Proof.
  split; [reflexivity|]. split; [|split].
  - eexists. split; [vm_compute; reflexivity|reflexivity].
  - eexists. split; [vm_compute; reflexivity|reflexivity].
  - reflexivity.
Qed.

(** The table generated for [mmax = 2^31 + 1]. *)
Definition ctx_wide : DecryptionContext :=
  mk_ctx (2 ^ 31 + 1) (std_sort mG_less (ref_mG_generate_no_sort (2 ^ 31 + 1))).

(** C2 fails past the result type: the message [2^31] lies in the range of
    the table generated for [mmax = 2^31 + 1], and its cipher decrypts to
    [-2^31], the [int32_t] that [decryptCipher] returns, not to [2^31]. *)
Lemma decryptCipher_roundtrip_past_int32 :
  0 <= 2 ^ 31 < 2 ^ 31 + 1
  /\ DecryptionContext_generate (2 ^ 31 + 1) = Returned ctx_wide
  /\ PublicKey_encrypt pubkey (2 ^ 31) (Some r11) g100 = Returned (cipher_of (2 ^ 31))
  /\ fst (decryptCipher privkey (mk_Store ctx_wide (cipher_of (2 ^ 31)) []))
     = Returned (Int.int32 (2 ^ 31))
  /\ Int.int32 (2 ^ 31) = - 2 ^ 31
  /\ fst (decryptCipher privkey (mk_Store ctx_wide (cipher_of (2 ^ 31)) []))
     <> Returned (2 ^ 31).
Proof.
  assert (fst (decryptCipher privkey (mk_Store ctx_wide (cipher_of (2 ^ 31)) []))
          = Returned (Int.int32 (2 ^ 31))) as Hdec.
  { exact (decryptCipher_generated files privkey (2 ^ 31) (le_decode r11) (2 ^ 31 + 1) []
             ltac:(lia) ltac:(lia) (le_decode_nonneg r11)). }
  split; [lia|]. split; [exact (generate_returned files (2 ^ 31 + 1))|].
  split; [exact (PublicKey_encrypt_cipher_of (2 ^ 31))|].
  split; [exact Hdec|]. split; [reflexivity|].
  intros H. pose proof (eq_trans (eq_sym Hdec) H) as E.
  injection E as E. vm_compute in E. discriminate E.
Qed.

Lemma ctx8_covers : table_covers ctx8.
Proof. apply (generate_covers files). lia. Qed.

Lemma decryptCipher_roundtrip_witness :
  0 <= 5 < mmax ctx8
  /\ PrivateKey_encrypt privkey 5 (Some r11) g100 = Returned (cipher_of 5)
  /\ fst (decryptCipher privkey (mk_Store ctx8 (cipher_of 5) [])) = Returned 5.
Proof.
  split; [simpl; lia|]. split; [vm_compute; reflexivity|].
  apply (decryptCipher_roundtrip files privkey 5 (Some r11) g100).
  - exact ctx8_covers.
  - simpl. lia.
  - lia.
  - left. apply PublicKey_encrypt_cipher_of.
Defined.



Lemma DecryptionContext_load_count_check_witness :
  DecryptionContext_load "absent.bin" 2 = Thrown "Failed to load mG.bin."
  /\ forall ctx,
       DecryptionContext_load "mG.bin" 2 = Returned ctx ->
       mmax ctx = 2 /\ Z.of_nat (length (mG ctx)) = 2.
Proof.
  split.
  - apply (DecryptionContext_load_count_check "absent.bin" 2); [lia|].
    vm_compute. intros H. discriminate H.
  - intros ctx H.
    apply (DecryptionContext_load_count_check "mG.bin" 2 ltac:(lia)) in H.
    exact (proj2 H).
Defined.

(** C5 fails for a loaded table: the artifact [unsorted.bin] holds two
    records, the point of 2 before the point of 1; it loads, and the first
    entry of the table is not below the second. *)
Lemma loaded_table_out_of_order :
  exists ctx a b,
    DecryptionContext_load "unsorted.bin" 2 = Returned ctx
    /\ mG ctx !! 0%nat = Some a /\ mG ctx !! 1%nat = Some b
    /\ ~ Buf.memcmp (point a) (point b) EPIR_POINT_SIZE < 0.
Proof.
  eexists _, _, _. split; [vm_compute; reflexivity|].
  split; [reflexivity|]. split; [reflexivity|].
  vm_compute. intros H. discriminate H.
Qed.

Lemma generated_table_sorted_witness :
  exists ctx,
    DecryptionContext_generate 8 = Returned ctx
    /\ forall i a b, mG ctx !! i = Some a -> mG ctx !! S i = Some b ->
                     Buf.memcmp (point a) (point b) EPIR_POINT_SIZE < 0.
Proof.
  destruct (proj1 (generated_table_sorted files 8 ltac:(lia))) as (ctx & H & _ & Hs).
  exists ctx. split; [exact H|exact Hs].
Defined.





(** ** The decryption methods over memory, at concrete inputs *)

#[local] Instance natives : Mem.Natives := Mem.at_addresses core.

(** A heap with a reply of two ciphers at address 0, the table for
    [mmax = 8] at address 1, a cipher at address 2, and a reply of one
    cipher at address 3. *)
Definition heap0 : Mem.heap :=
  <[3%nat := Mem.Bytes (cipher_of 5)]>
    (<[2%nat := Mem.Bytes (cipher_of 5)]>
       (<[1%nat := Mem.Table (mG ctx8)]>
          (<[0%nat := Mem.Bytes (cipher_of 5 ++ cipher_of 3)]> ∅))).
Definition this8 : Mem.Context := Mem.mk_Context 8 1.

(** The reply decoder does overwrite the buffer it is handed: called on the
    address of the reply itself, it would leave other bytes there. *)
Lemma reply_decoder_overwrites :
  Mem.bytes_at
    (snd (Mem.epir_reply_decrypt_at heap0 0 128 (sc_bytes privkey) 1 2 1 8)) 0
  <> Mem.bytes_at heap0 0.
Proof. vm_compute. intros H. discriminate H. Qed.

Lemma decrypt_leaves_memory_witness :
  snd (Mem.decryptReply this8 privkey 0 1 2 [] heap0) = heap0
  /\ Mem.bytes_at (snd (Mem.decryptReply this8 privkey 0 1 2 [] heap0)) 0
     = cipher_of 5 ++ cipher_of 3.
Proof.
  destruct (decrypt_leaves_memory (natives := natives) this8 privkey 2 0 1 2 [] heap0
              (at_addresses_contract core)) as ((_ & H2) & Hreply & _).
  split; [exact H2|]. rewrite Hreply. vm_compute. reflexivity.
Defined.



End Fixture.

(** * Further properties of the wrapper and the benchmark *)

(** ** An order without inversions after [std::sort] *)

Section SortMoreFacts.
Context {A : Type} (comp : A -> A -> bool).
Hypothesis comp_asym : forall a b, comp a b = true -> comp b a = false.
Hypothesis comp_trans : forall a b c, comp a b = true -> comp b c = true -> comp a c = true.

Lemma sort_insert_no_inversion x l :
  StronglySorted (fun a b => comp b a = false) l ->
  StronglySorted (fun a b => comp b a = false) (sort_insert comp x l).
Proof.
  induction 1 as [|y l Hl IH Hy]; simpl.
  - repeat constructor.
  - destruct (comp x y) eqn:E.
    + constructor; [now constructor|].
      constructor; [now apply comp_asym|].
      eapply Forall_impl; [exact Hy|]. intros z Hz. simpl in Hz.
      destruct (comp z x) eqn:Ez; [|reflexivity].
      rewrite (comp_trans z x y Ez E) in Hz. discriminate Hz.
    + constructor; [exact IH|].
      rewrite sort_insert_perm. now constructor.
Qed.

Lemma std_sort_no_inversion l :
  StronglySorted (fun a b => comp b a = false) (std_sort comp l).
Proof.
  induction l as [|x l IH]; simpl; [constructor|].
  now apply sort_insert_no_inversion.
Qed.

End SortMoreFacts.

(** ** The wrapper over any native core *)

Section WrapperMore.
Context {core : EpirCore}.

Lemma mG_less_irrefl a : mG_less a a = false.
Proof. unfold mG_less. now rewrite memcmp_refl. Qed.

Lemma mG_less_asym a b : mG_less a b = true -> mG_less b a = false.
Proof.
  unfold mG_less. rewrite (memcmp_opp (point a) (point b)).
  intros H. apply Z.ltb_lt in H. apply Z.ltb_ge. lia.
Qed.

Lemma mG_less_transitive a b c :
  mG_less a b = true -> mG_less b c = true -> mG_less a c = true.
Proof.
  unfold mG_less. rewrite !Z.ltb_lt. apply memcmp_lt_trans.
Qed.

Lemma mG_less_total a b :
  length (point a) = EPIR_POINT_SIZE -> length (point b) = EPIR_POINT_SIZE ->
  point a <> point b -> mG_less a b = true \/ mG_less b a = true.
Proof.
  intros Ha Hb Hne. unfold mG_less. rewrite !Z.ltb_lt.
  destruct (Z.lt_trichotomy (Buf.memcmp (point a) (point b) EPIR_POINT_SIZE) 0)
    as [H|[H|H]].
  - now left.
  - exfalso. apply Hne. now apply (memcmp_eq _ _ EPIR_POINT_SIZE).
  - right. rewrite memcmp_opp. lia.
Qed.

(** Every constructor of [Scalar] leaves exactly [EPIR_SCALAR_SIZE] bytes;
    the buffer constructor takes the first [EPIR_SCALAR_SIZE] bytes of a
    buffer that has them, and rebuilding a scalar from its own bytes gives
    the scalar back. *)
Theorem Scalar_constructors_size (g : rng) (buf : bytes) :
  length (sc_bytes (Scalar_random g)) = EPIR_SCALAR_SIZE
  /\ length (sc_bytes (Scalar_of_buf buf)) = EPIR_SCALAR_SIZE
  /\ ((EPIR_SCALAR_SIZE <= length buf)%nat ->
      sc_bytes (Scalar_of_buf buf) = take EPIR_SCALAR_SIZE buf)
  /\ Scalar_of_buf (sc_bytes (Scalar_of_buf buf)) = Scalar_of_buf buf
  /\ Scalar_of_buf (sc_bytes (Scalar_random g)) = Scalar_random g.
Proof.
  assert (forall b, length b = EPIR_SCALAR_SIZE -> Scalar_of_buf b = mk_Scalar b) as Hfix.
  { intros b Hb. unfold Scalar_of_buf. now rewrite memcpy_zeros_fixed. }
  assert (length (sc_bytes (Scalar_random g)) = EPIR_SCALAR_SIZE) as Hr.
  { simpl. now rewrite length_poke, length_zeros. }
  assert (length (sc_bytes (Scalar_of_buf buf)) = EPIR_SCALAR_SIZE) as Hb.
  { simpl. now rewrite length_memcpy, length_zeros. }
  split; [exact Hr|]. split; [exact Hb|]. split; [|split].
  - intros Hlen. simpl. now apply memcpy_prefix.
  - now rewrite (Hfix _ Hb).
  - now rewrite (Hfix _ Hr).
Qed.

(** A public key, derived from a private key or copied from a buffer, has
    exactly [EPIR_POINT_SIZE] bytes, and the buffer constructor applied to
    its bytes gives the same key: exporting and importing a key loses
    nothing. *)
Theorem PublicKey_export_import (privkey : PrivateKey) (buf : bytes) :
  (length (pk_bytes (PublicKey_of_privkey privkey)) = EPIR_POINT_SIZE
   /\ PublicKey_of_buf (pk_bytes (PublicKey_of_privkey privkey))
      = PublicKey_of_privkey privkey)
  /\ (length (pk_bytes (PublicKey_of_buf buf)) = EPIR_POINT_SIZE
      /\ PublicKey_of_buf (pk_bytes (PublicKey_of_buf buf)) = PublicKey_of_buf buf)
  /\ ((EPIR_POINT_SIZE <= length buf)%nat ->
      pk_bytes (PublicKey_of_buf buf) = take EPIR_POINT_SIZE buf).
Proof.
  assert (forall b, length b = EPIR_POINT_SIZE -> PublicKey_of_buf b = mk_PublicKey b)
    as Hfix.
  { intros b Hb. unfold PublicKey_of_buf. now rewrite memcpy_zeros_fixed. }
  assert (length (pk_bytes (PublicKey_of_privkey privkey)) = EPIR_POINT_SIZE) as Hp.
  { simpl. now rewrite length_poke, length_zeros. }
  assert (length (pk_bytes (PublicKey_of_buf buf)) = EPIR_POINT_SIZE) as Hb.
  { simpl. now rewrite length_memcpy, length_zeros. }
  split; [split; [exact Hp|now rewrite (Hfix _ Hp)]|].
  split; [split; [exact Hb|now rewrite (Hfix _ Hb)]|].
  intros Hlen. simpl. now apply memcpy_prefix.
Qed.

(** Whatever the native encryption writes, [encrypt] of either variant
    returns, and its cipher has exactly [EPIR_CIPHER_SIZE] bytes, which split
    into two halves of [EPIR_POINT_SIZE] bytes; the byte at a position the
    native function wrote is the byte it wrote. *)
Theorem encrypt_cipher_size (e : Encryptor) (m : Z) (r : option bytes) (g : rng) :
  let written :=
    match e with
    | WithPrivateKey k => epir_ecelgamal_encrypt_fast (sc_bytes k) m r g
    | WithPublicKey k => epir_ecelgamal_encrypt (pk_bytes k) m r g
    end in
  exists cipher : bytes,
    encrypt e m r g = Returned cipher
    /\ length cipher = EPIR_CIPHER_SIZE
    /\ length (take EPIR_POINT_SIZE cipher) = EPIR_POINT_SIZE
    /\ length (drop EPIR_POINT_SIZE cipher) = EPIR_POINT_SIZE
    /\ forall i, (i < EPIR_CIPHER_SIZE)%nat -> (i < length written)%nat ->
                 cipher !! i = written !! i.
Proof.
  intros written.
  assert (exists cipher : bytes,
            encrypt e m r g = Returned cipher
            /\ cipher = Buf.poke (Buf.zeros EPIR_CIPHER_SIZE) written)
    as (cipher & Henc & Hc).
  { destruct e; eexists; split; reflexivity. }
  exists cipher. split; [exact Henc|].
  assert (length cipher = EPIR_CIPHER_SIZE) as Hlen.
  { rewrite Hc. now rewrite length_poke, length_zeros. }
  pose proof cipher_size_points as Hsz.
  split; [exact Hlen|]. split; [|split].
  - rewrite length_take. lia.
  - rewrite length_drop. lia.
  - intros i Hi Hw. rewrite Hc, lookup_poke by (rewrite length_zeros; lia).
    destruct (Nat.ltb_spec i (length written)); [reflexivity|lia].
Qed.

(** The comparator that the generating constructor hands to [std::sort] is a
    strict weak ordering, as [std::sort] requires: it is irreflexive,
    asymmetric and transitive, and two entries with points of
    [EPIR_POINT_SIZE] bytes are unordered exactly when their points are
    equal. *)
Theorem mG_less_strict_weak_order :
  (forall a, mG_less a a = false)
  /\ (forall a b, mG_less a b = true -> mG_less b a = false)
  /\ (forall a b c, mG_less a b = true -> mG_less b c = true -> mG_less a c = true)
  /\ (forall a b,
        length (point a) = EPIR_POINT_SIZE -> length (point b) = EPIR_POINT_SIZE ->
        (mG_less a b = false /\ mG_less b a = false <-> point a = point b)).
Proof.
  split; [exact mG_less_irrefl|]. split; [exact mG_less_asym|].
  split; [exact mG_less_transitive|].
  intros a b Ha Hb. split.
  - intros [Hab Hba]. unfold mG_less in Hab, Hba.
    apply Z.ltb_ge in Hab, Hba. rewrite (memcmp_opp (point a)) in Hba.
    apply (memcmp_eq _ _ EPIR_POINT_SIZE); [assumption..|lia].
  - intros E. unfold mG_less. rewrite E, memcmp_refl. now split.
Qed.

(** What the generating constructor builds.  Whatever the native generator
    writes, a context that is constructed has the requested [mmax] and a
    table of [mmax] entries, which is a rearrangement of the buffer the
    generator filled, and has no inversion: no entry is below an earlier one
    in the comparator's order. *)
Theorem DecryptionContext_generate_sorted (n : Z) (ctx : DecryptionContext) :
  0 <= n ->
  DecryptionContext_generate n = Returned ctx ->
  mmax ctx = n
  /\ Z.of_nat (length (mG ctx)) = n
  /\ mG ctx ≡ₚ Buf.poke (replicate (Z.to_nat n) zero_mG) (epir_mG_generate_no_sort n)
  /\ (length (epir_mG_generate_no_sort n) = Z.to_nat n ->
      mG ctx ≡ₚ epir_mG_generate_no_sort n)
  /\ forall i j a b, (i < j)%nat -> mG ctx !! i = Some a -> mG ctx !! j = Some b ->
                     mG_less b a = false.
Proof.
  intros Hn [= <-]. cbn [mmax mG].
  split; [reflexivity|].
  assert (std_sort mG_less
            (Buf.poke (replicate (Z.to_nat n) zero_mG) (epir_mG_generate_no_sort n))
          ≡ₚ Buf.poke (replicate (Z.to_nat n) zero_mG) (epir_mG_generate_no_sort n))
    as Hperm by apply std_sort_perm.
  split; [|split; [exact Hperm|split]].
  - rewrite Hperm, length_poke, length_replicate. lia.
  - intros Hlen. rewrite Hperm.
    rewrite poke_same_length; [reflexivity|]. now rewrite length_replicate.
  - intros i j a b Hij Ha Hb.
    exact (StronglySorted_lookup _ _ i j a b
             (std_sort_no_inversion mG_less mG_less_asym mG_less_transitive _)
             Hij Ha Hb).
Qed.

(** The table of the generating constructor does not depend on how
    [std::sort] orders equivalent elements when there are none: if the
    generator writes [mmax] entries whose points have [EPIR_POINT_SIZE] bytes
    and are pairwise distinct, every strictly ascending arrangement of these
    entries is the table the constructor builds. *)
Theorem generated_table_unique (n : Z) (tbl : list epir_mG_t) :
  length (epir_mG_generate_no_sort n) = Z.to_nat n ->
  Forall (fun e => length (point e) = EPIR_POINT_SIZE) (epir_mG_generate_no_sort n) ->
  NoDup (point <$> epir_mG_generate_no_sort n) ->
  tbl ≡ₚ epir_mG_generate_no_sort n ->
  StronglySorted (lt_by mG_less) tbl ->
  DecryptionContext_generate n = Returned (mk_ctx n tbl).
Proof.
  intros Hlen Hwf Hnd Hperm Hs. unfold DecryptionContext_generate.
  rewrite poke_same_length by (now rewrite length_replicate).
  do 2 f_equal.
  apply (StronglySorted_unique_strong (lt_by mG_less)).
  - intros a b _ _ Hab Hba. apply mG_less_asym in Hab.
    unfold lt_by in Hba. congruence.
  - apply std_sort_sorted; [exact mG_less_transitive|].
    apply ForallOrdPairs_lookup. intros i j a b Hij Ha Hb.
    rewrite Forall_forall in Hwf.
    apply mG_less_total.
    + apply Hwf. eapply list_elem_of_lookup_2. exact Ha.
    + apply Hwf. eapply list_elem_of_lookup_2. exact Hb.
    + intros E.
      assert (i = j); [|lia].
      apply (NoDup_lookup _ i j (point a) Hnd).
      * now rewrite list_lookup_fmap, Ha.
      * now rewrite list_lookup_fmap, Hb, E.
  - exact Hs.
  - rewrite std_sort_perm. now symmetry.
Qed.

(** A table that loads holds, at each position the native loader wrote, the
    record the loader wrote there, in the loader's order, and at every other
    position the value-initialised entry: loading never reorders. *)
Theorem DecryptionContext_load_entries (path : string) (n : Z) (ctx : DecryptionContext) :
  DecryptionContext_load path n = Returned ctx ->
  let read := snd (epir_mG_load n (if String.eqb path "" then None else Some path)) in
  forall i, (i < Z.to_nat n)%nat ->
    mG ctx !! i = if (i <? length read)%nat then read !! i else Some zero_mG.
Proof.
  unfold DecryptionContext_load.
  destruct (epir_mG_load n _) as [count read]. simpl snd.
  destruct (negb _); [discriminate|]. intros [= <-] i Hi. cbn [mG].
  rewrite lookup_poke by (rewrite length_replicate; lia).
  destruct (i <? length read)%nat; [reflexivity|].
  now apply lookup_replicate_2.
Qed.

(** [decryptReply] throws exactly when the native count, as an [int], is
    negative.  Otherwise it returns exactly that many bytes, and each of them
    that lies within the reply's size is the byte the native decoder left
    there: the byte it wrote, or the reply's own byte where it wrote none. *)
Theorem decryptReply_bytes (privkey : PrivateKey) (dimension packing : Z) (s : Store) :
  let reply := st_reply s in
  let res :=
    epir_reply_decrypt reply (Z.of_nat (length reply)) (sc_bytes privkey)
      dimension packing (mG (st_this s)) (mmax (st_this s)) in
  let count := Int.int32 (fst res) in
  (count < 0 <-> fst (decryptReply privkey dimension packing s) = Thrown "Failed to decrypt.")
  /\ (0 <= count ->
      exists ret,
        fst (decryptReply privkey dimension packing s) = Returned ret
        /\ Z.of_nat (length ret) = count
        /\ forall i, (i < length ret)%nat -> (i < length reply)%nat ->
             ret !! i = if (i <? length (snd res))%nat then snd res !! i else reply !! i).
Proof.
  intros reply res count.
  destruct (decryptReply_cases privkey dimension packing s) as [Hneg Hpos].
  fold reply res count in Hneg, Hpos.
  split; [split|].
  - exact Hneg.
  - intros Hthrown. destruct (Z.lt_ge_cases count 0) as [H|H]; [exact H|].
    rewrite (Hpos H) in Hthrown. discriminate Hthrown.
  - intros Hc. eexists. split; [exact (Hpos Hc)|].
    rewrite length_memcpy, length_zeros. split; [lia|].
    intros i Hi Hr.
    rewrite lookup_memcpy_zeros by (rewrite ?length_poke; lia).
    now apply lookup_poke.
Qed.

End WrapperMore.

(** ** The benchmark *)

Section BenchFacts.

Lemma land_le_r a b : 0 <= b -> 0 <= Z.land a b <= b.
Proof.
  intros Hb. apply Z.ldiff_le; [exact Hb|].
  apply Z.bits_inj'. intros k Hk.
  rewrite Z.ldiff_spec, Z.land_spec, Z.bits_0.
  destruct (Z.testbit a k), (Z.testbit b k); reflexivity.
Qed.

(** The messages of the benchmark lie in [0, EPIR_MG_MAX), whatever [rand()]
    returns; when [EPIR_MG_MAX] is a power of two, the message is [rand()]
    modulo [EPIR_MG_MAX]. *)
Theorem bench_message_range (EPIR_MG_MAX rnd : Z) :
  0 < EPIR_MG_MAX <= 2 ^ 64 ->
  0 <= Bench.message EPIR_MG_MAX rnd < EPIR_MG_MAX
  /\ (forall k, 0 <= k -> EPIR_MG_MAX = 2 ^ k ->
        Bench.message EPIR_MG_MAX rnd = rnd mod EPIR_MG_MAX).
Proof.
  intros HM. unfold Bench.message.
  pose proof (land_le_r rnd (EPIR_MG_MAX - 1) ltac:(lia)) as Hland.
  unfold Int.uint64. rewrite Z.mod_small by lia. split; [lia|].
  intros k Hk ->. rewrite <- Z.land_ones by exact Hk.
  now rewrite Z.ones_equiv, <- Z.sub_1_r.
Qed.

(** The benchmark's test [decrypted != msg[i]] compares in [uint64_t]: for a
    message below [2^63] it is false exactly when the [int32_t] equals the
    message, and a negative status of the decryption always counts as an
    error. *)
Theorem bench_mismatch_reports (decrypted msg : Z) :
  - 2 ^ 31 <= decrypted < 2 ^ 31 ->
  0 <= msg < 2 ^ 63 ->
  (Bench.mismatch decrypted msg = false <-> decrypted = msg)
  /\ (decrypted < 0 -> Bench.mismatch decrypted msg = true).
Proof.
  intros Hd Hm. unfold Bench.mismatch, Int.uint64.
  assert (decrypted mod 2 ^ 64 = decrypted \/ decrypted mod 2 ^ 64 = decrypted + 2 ^ 64 /\ decrypted < 0)
    as Hmod.
  { destruct (Z.lt_ge_cases decrypted 0) as [H|H].
    - right. split; [|exact H].
      rewrite <- (Z.mod_add decrypted 1 (2 ^ 64)) by lia.
      rewrite Z.mod_small; lia.
    - left. rewrite Z.mod_small; lia. }
  rewrite negb_false_iff, negb_true_iff, Z.eqb_eq, Z.eqb_neq. lia.
Qed.

End BenchFacts.

(** ** The further properties at concrete inputs *)

Module Examples.

#[local] Existing Instance ModelCurve.curve.
#[local] Existing Instance Fixture.core.

#[local] Instance byte_eq_dec : EqDecision byte := Byte.byte_eq_dec.
#[local] Instance epir_mG_t_eq_dec : EqDecision epir_mG_t.
Proof. solve_decision. Defined.

Lemma Scalar_constructors_size_witness :
  sc_bytes (Scalar_of_buf (le_encode 40 7)) = le_encode 32 7.
Proof.
  destruct (Scalar_constructors_size Fixture.g100 (le_encode 40 7)) as (_ & _ & H & _).
  rewrite H; [reflexivity|]. vm_compute. lia.
Defined.

Lemma PublicKey_export_import_witness :
  pk_bytes (PublicKey_of_buf (le_encode 40 7)) = le_encode 32 7.
Proof.
  destruct (PublicKey_export_import Fixture.privkey (le_encode 40 7)) as (_ & _ & H).
  rewrite H; [reflexivity|]. vm_compute. lia.
Defined.

Lemma encrypt_cipher_size_witness :
  exists cipher : bytes,
    encrypt (WithPrivateKey Fixture.privkey) 5 (Some Fixture.r11) Fixture.g100
    = Returned cipher
    /\ cipher !! 0%nat = Fixture.cipher_of 5 !! 0%nat.
Proof.
  destruct (encrypt_cipher_size (WithPrivateKey Fixture.privkey) 5 (Some Fixture.r11)
              Fixture.g100) as (cipher & Henc & _ & _ & _ & Hat).
  exists cipher. split; [exact Henc|].
  rewrite (Hat O); [vm_compute; reflexivity|vm_compute; lia|vm_compute; lia].
Defined.

Lemma mG_less_strict_weak_order_witness :
  mG_less (entry 4) (entry 1) = true /\ mG_less (entry 1) (entry 4) = false
  /\ (mG_less (entry 1) (entry 1) = false /\ mG_less (entry 1) (entry 1) = false
      <-> point (entry 1) = point (entry 1)).
Proof.
  destruct mG_less_strict_weak_order as (_ & Hasym & _ & Heq).
  split; [vm_compute; reflexivity|].
  split; [apply Hasym; vm_compute; reflexivity|].
  apply Heq; vm_compute; reflexivity.
Defined.

Lemma DecryptionContext_generate_sorted_witness :
  exists ctx,
    DecryptionContext_generate 8 = Returned ctx
    /\ Z.of_nat (length (mG ctx)) = 8
    /\ forall i j a b, (i < j)%nat -> mG ctx !! i = Some a -> mG ctx !! j = Some b ->
                       mG_less b a = false.
Proof.
  destruct (DecryptionContext_generate 8) as [ctx|what] eqn:H; [|discriminate H].
  destruct (DecryptionContext_generate_sorted 8 ctx ltac:(lia) H)
    as (_ & Hlen & _ & _ & Hs).
  exists ctx. split; [reflexivity|]. split; [exact Hlen|exact Hs].
Defined.

(** The table for [mmax = 8] over the model curve: the entries of
    0, 4, 1, 5, 6, 2, 7, 3, in this order. *)
Lemma generated_table_unique_witness :
  DecryptionContext_generate 8
  = Returned (mk_ctx 8 (entry <$> [0; 4; 1; 5; 6; 2; 7; 3])).
Proof.
  apply generated_table_unique.
  - vm_compute. reflexivity.
  - vm_compute. repeat (constructor; [reflexivity|]). constructor.
  - refine (@bool_decide_unpack _ _ _). vm_compute. exact I.
  - refine (@bool_decide_unpack _ _ _). vm_compute. exact I.
  - vm_compute. repeat (constructor; [|repeat (constructor; [reflexivity|]); constructor]).
    constructor.
Defined.

Lemma DecryptionContext_load_entries_witness :
  exists ctx,
    DecryptionContext_load "mG.bin" 2 = Returned ctx
    /\ mG ctx !! 1%nat = Some (entry 1).
Proof.
  destruct (DecryptionContext_load "mG.bin" 2) as [ctx|what] eqn:H;
    [|vm_compute in H; discriminate H].
  exists ctx. split; [reflexivity|].
  rewrite (DecryptionContext_load_entries "mG.bin" 2 ctx H 1%nat) by (vm_compute; lia).
  vm_compute. reflexivity.
Defined.

Lemma decryptReply_bytes_witness :
  exists ret,
    fst (decryptReply Fixture.privkey 1 2
           (mk_Store Fixture.ctx8 [] (Fixture.cipher_of 5 ++ Fixture.cipher_of 3)))
    = Returned ret
    /\ Z.of_nat (length ret) = 4.
Proof.
  destruct (decryptReply_bytes Fixture.privkey 1 2
              (mk_Store Fixture.ctx8 [] (Fixture.cipher_of 5 ++ Fixture.cipher_of 3)))
    as [_ H].
  destruct H as (ret & Hret & Hlen & _); [vm_compute; discriminate|].
  exists ret. split; [exact Hret|]. rewrite Hlen. vm_compute. reflexivity.
Defined.

Lemma bench_message_range_witness :
  0 <= Bench.message (2 ^ 24) 1234567890 < 2 ^ 24
  /\ Bench.message (2 ^ 24) 1234567890 = 1234567890 mod 2 ^ 24.
Proof.
  destruct (bench_message_range (2 ^ 24) 1234567890 ltac:(lia)) as [H1 H2].
  split; [exact H1|]. apply (H2 24); [lia|reflexivity].
Defined.

Lemma bench_mismatch_reports_witness :
  Bench.mismatch (-1) 42 = true /\ (Bench.mismatch 42 42 = false <-> 42 = 42).
Proof.
  split.
  - apply (bench_mismatch_reports (-1) 42); lia.
  - apply (bench_mismatch_reports 42 42); lia.
Defined.

End Examples.
